(** * The metrics documentation generator ([hack/docs/metrics_gen/main.go])

    A shallow embedding of the generator: the syntax trees it scans, the
    resolution of constructor fields to strings, the catalogue of synthesized
    metrics, normalization (dedupe, drop, prefix folding), the sort and the
    renderer, followed by the properties of the pipeline.

    Go strings are byte sequences; they are embedded as [string] (a list of
    8-bit [ascii]).  Go maps that are used as tables are [gmap]s.  [log.Fatal]
    is an error result, a runtime panic during rendering is an outcome of its
    own that keeps what was already written to the file. *)

From Stdlib Require Import Ascii String ZArith Lia.
From stdpp Require Import base strings list gmap sorting.

Local Open Scope Z_scope.
Local Open Scope stdpp_scope.

(** ** Library functions of [strings] and [lo] that the generator calls *)

Module Go.

(** The byte [0x22], written by its decimal code. *)
Definition quote : ascii := "034"%char.
Definition underscore : ascii := "_"%char.
Definition nl : string := String "010"%char "".

(** [strings.HasPrefix(s, prefix)]. *)
Definition HasPrefix (s prefix : string) : bool := String.prefix prefix s.

(** [s[n:]] for [n <= len(s)]. *)
Fixpoint sliceFrom (n : nat) (s : string) : string :=
  match n, s with
  | O, _ => s
  | S n', String _ s' => sliceFrom n' s'
  | S _, EmptyString => EmptyString
  end.

(** [strings.TrimPrefix(s, prefix)]. *)
Definition TrimPrefix (s prefix : string) : string :=
  if HasPrefix s prefix then sliceFrom (String.length prefix) s else s.

(** [strings.HasSuffix(s, suffix)]:
    [len(s) >= len(suffix) && s[len(s)-len(suffix):] == suffix]. *)
Definition HasSuffix (s suffix : string) : bool :=
  (String.length suffix <=? String.length s)%nat
  && String.eqb (sliceFrom (String.length s - String.length suffix) s) suffix.

Fixpoint trimLeftQuotes (s : string) : string :=
  match s with
  | String c s' => if Ascii.eqb c quote then trimLeftQuotes s' else s
  | EmptyString => EmptyString
  end.

Fixpoint trimRightQuotes (s : string) : string :=
  match s with
  | EmptyString => EmptyString
  | String c s' =>
      match trimRightQuotes s' with
      | EmptyString => if Ascii.eqb c quote then EmptyString else String c EmptyString
      | t => String c t
      end
  end.

(** [strings.Trim(s, `"`)] and [strings.TrimFunc(s, func(r) bool { return r == '"' })]:
    every leading and every trailing [0x22] byte removed.  The byte [0x22] is
    never part of a multi-byte UTF-8 sequence, so the rune-wise and the
    byte-wise descriptions agree. *)
Definition TrimQuotes (s : string) : string := trimRightQuotes (trimLeftQuotes s).

(** [strings.Split(s, "_")]: the pieces between the separators; never the
    empty list ([Split("", "_")] is [[""]]). *)
Fixpoint Split (s : string) : list string :=
  match s with
  | EmptyString => [EmptyString]
  | String c s' =>
      if Ascii.eqb c underscore then EmptyString :: Split s'
      else match Split s' with
           | w :: ws => String c w :: ws
           | [] => [String c EmptyString]
           end
  end.

(** [strings.Join(elems, sep)]. *)
Definition Join (elems : list string) (sep : string) : string := String.concat sep elems.

Definition isLower (c : ascii) : bool :=
  (97 <=? nat_of_ascii c)%nat && (nat_of_ascii c <=? 122)%nat.

Definition upperByte (c : ascii) : ascii :=
  if isLower c then ascii_of_nat (nat_of_ascii c - 32) else c.

Fixpoint mapBytes (f : ascii → ascii) (s : string) : string :=
  match s with
  | EmptyString => EmptyString
  | String c s' => String (f c) (mapBytes f s')
  end.

(** [strings.ToUpper] on a string of ASCII bytes. *)
Definition ToUpperASCII (s : string) : string := mapBytes upperByte s.

(** [strings.ToUpper] on a one-byte string [s[0:1]]: an ASCII byte is
    upper-cased; a byte [>= 0x80] on its own is invalid UTF-8, which
    [strings.Map] replaces by the encoding of U+FFFD. *)
Definition ToUpper1 (c : ascii) : string :=
  if (nat_of_ascii c <? 128)%nat then String (upperByte c) EmptyString
  else String "239"%char (String "191"%char (String "189"%char EmptyString)).

(** [lo.Compact] on strings: the non-zero (non-empty) elements, in order. *)
Definition Compact (l : list string) : list string :=
  filter (λ s, s ≠ EmptyString) l.

(** [lo.Reject]: the elements for which the predicate is false, in order. *)
Definition Reject {A} (l : list A) (p : A → bool) : list A :=
  filter (λ x, p x = false) l.

(** [lo.UniqBy]: walks the collection with a set of the keys seen so far and
    keeps an element when its key is new. *)
Fixpoint uniqByFrom {A} (iteratee : A → string) (seen : gset string) (l : list A) : list A :=
  match l with
  | [] => []
  | item :: rest =>
      if decide (iteratee item ∈ seen) then uniqByFrom iteratee seen rest
      else item :: uniqByFrom iteratee ({[iteratee item]} ∪ seen) rest
  end.

Definition UniqBy {A} (l : list A) (iteratee : A → string) : list A :=
  uniqByFrom iteratee ∅ l.

End Go.

(** ** The syntax trees of [go/ast], as far as the generator inspects them *)

(** Expressions.  [BasicLit] carries its [Value] (the literal's source text,
    quotes included); [SelectorExpr] its operand and the name of [Sel];
    [BinaryExpr] its two operands (the operator is never inspected);
    [IndexExpr] the indexed operand.  [OtherExpr] stands for the node kinds
    the generator has no case for (unary expressions, type expressions, ...),
    told apart by a tag. *)
#[warnings="-register-all"]
Inductive expr : Type :=
| BasicLit (Value : string)
| Ident (Name : string)
| SelectorExpr (X : expr) (Sel : string)
| BinaryExpr (X Y : expr)
| ParenExpr (X : expr)
| StarExpr (X : expr)
| IndexExpr (X : expr)
| FuncLit
| CallExpr (Fun : expr) (Args : list expr)
| CompositeLit (Elts : list expr)
| KeyValueExpr (Key Value : expr)
| OtherExpr (tag : nat).

Inductive spec : Type :=
| ValueSpec (Values : list expr)
| OtherSpec.

Inductive token : Type := IMPORT | CONST | TYPE | VAR.

Inductive decl : Type :=
| FuncDecl
| GenDecl (Tok : token) (Specs : list spec)
| BadDecl.

(** [ast.File]: its top-level declarations. *)
Definition file : Type := list decl.

(** [ast.Package].  [Files] is a Go map; [pkgFiles] lists its values in the
    order in which this run's [range pkg.Files] yields them.  Go leaves the
    iteration order of a map unspecified and the runtime varies it from one
    run to the next. *)
Record package : Type := { pkgName : string; pkgFiles : list file }.

(** ** Fatal errors and the error monad *)

Inductive fatal : Type :=
| Usage
| ErrorParsing (err : string)
| UnsupportedSelector (selector : string)
| NoIdentifierMapping (identName : string)
| UnsupportedValue (val : expr)
| UnsupportedFuncExpression (fn : expr)
| ErrorCreatingOutputFile (outputFileName : string).

(** A computation that either returns or ends the process in [log.Fatal]. *)
Inductive result (A : Type) : Type :=
| Ok (a : A)
| Fatal (d : fatal).
Arguments Ok {A} a.
Arguments Fatal {A} d.

Definition bind {A B} (m : result A) (k : A → result B) : result B :=
  match m with
  | Ok a => k a
  | Fatal d => Fatal d
  end.

Notation "'do' x <- m ; k" := (bind m (λ x, k))
  (at level 10, x name, m at level 100, k at level 200).

(** [for _, x := range l { acc = append(acc, f(x)...) }] where [f] may be fatal. *)
Fixpoint appendEach {A B} (f : A → result (list B)) (acc : list B) (l : list A) : result (list B) :=
  match l with
  | [] => Ok acc
  | x :: rest => do r <- f x; appendEach f (acc ++ r) rest
  end.

(** ** What the run takes from the Go libraries and the file system *)

(** [sort.Slice] asks for a [less] that is a strict weak ordering. *)
Record strictWeakOrder {A} (less : A → A → bool) : Prop := {
  less_asym : ∀ a b, less a b = true → less b a = false;
  less_negtrans : ∀ a b c, less a b = false → less b c = false → less a c = false
}.

(** [a] may stand before [b] in a slice sorted by [less]. *)
Definition notAfter {A} (less : A → A → bool) (a b : A) : Prop := less b a = false.

Global Instance notAfter_dec {A} (less : A → A → bool) (a b : A) : Decision (notAfter less a b).
Proof. unfold notAfter. apply _. Defined.
Global Typeclasses Opaque notAfter.

(** The two library behaviours the embedding does not spell out.
    - [sortSlice] is [sort.Slice]: its documentation promises a sorted
      permutation, not a stable one, and no particular algorithm.
    - [fmtFields e] is the field dump that [fmt] prints between [&{] and [}]
      for a syntax node that has no [String] method; it depends on token
      positions, which the embedded trees do not carry. *)
Record runtime : Type := {
  sortSlice : ∀ A : Type, list A → (A → A → bool) → list A;
  sortSlice_Permutation : ∀ A (x : list A) less, sortSlice A x less ≡ₚ x;
  sortSlice_sorted : ∀ A (x : list A) less,
    strictWeakOrder less → StronglySorted (notAfter less) (sortSlice A x less);
  fmtFields : expr → string
}.
Arguments sortSlice _ {A} _ _.

(** The outcome of [parser.ParseDir] on one directory.  [Parsed] lists the
    values of the returned map in the order this run's [range pkgs] yields. *)
Inductive parsedDir : Type :=
| ParseFailed (err : string)
| Parsed (pkgs : list package).

(** The file system as the run sees it: the directories [filepath.WalkDir]
    visits under a root (in its lexical order) with what parsing each gives,
    and whether [os.Create] of a path succeeds. *)
Record world : Type := {
  walkDir : string → list parsedDir;
  createSucceeds : string → bool
}.

(** ** The data model *)

Record metricInfo : Type := {
  namespace : string;
  subsystem : string;
  name : string;
  help : string
}.

Global Instance metricInfo_eq_dec : EqDecision metricInfo.
Proof. solve_decision. Defined.

Definition stableMetrics : list string :=
  ["controller_runtime"; "aws_sdk_go"; "client_go"; "leader_election"; "interruption";
   "cluster_state"; "workqueue"; "karpenter_build_info"; "karpenter_nodepool_usage";
   "karpenter_nodepool_limit"; "karpenter_nodeclaims_terminated_total";
   "karpenter_nodeclaims_created_total"; "karpenter_nodes_terminated_total";
   "karpenter_nodes_created_total"; "karpenter_pods_startup_duration_seconds";
   "karpenter_scheduler_scheduling_duration_seconds";
   "karpenter_provisioner_scheduling_duration_seconds";
   "karpenter_nodepool_allowed_disruptions"; "karpenter_voluntary_disruption_decisions_total"].

Definition betaMetrics : list string :=
  ["status_condition"; "ec2nodeclass"; "nodeclaim"; "node"; "nodepool"; "cloudprovider";
   "cloudprovider_batcher"; "karpenter_nodeclaims_termination_duration_seconds";
   "karpenter_nodeclaims_instance_termination_duration_seconds";
   "karpenter_nodes_total_pod_requests"; "karpenter_nodes_total_pod_limits";
   "karpenter_nodes_total_daemon_requests"; "karpenter_nodes_total_daemon_limits";
   "karpenter_nodes_termination_duration_seconds"; "karpenter_nodes_system_overhead";
   "karpenter_nodes_allocatable"; "karpenter_pods_state"; "karpenter_scheduler_queue_depth";
   "karpenter_voluntary_disruption_queue_failures_total";
   "karpenter_voluntary_disruption_decision_evaluation_duration_seconds";
   "karpenter_voluntary_disruption_eligible_nodes";
   "karpenter_voluntary_disruption_consolidation_timeouts_total"].

Definition deprecatedMetrics : list string :=
  ["operator_status_condition_transitions_total"; "operator_status_condition_transition_seconds";
   "operator_status_condition_current_status_seconds"; "operator_status_condition_count";
   "operator_termination_duration_seconds"; "operator_termination_current_time_seconds"].

Definition qualifiedName (i : metricInfo) : string :=
  Go.Join (Go.Compact [namespace i; subsystem i; name i]) "_".

(** ** Value resolution *)

(** Modelled from the spec: [metrics.Namespace], a constant of the imported
    package [sigs.k8s.io/karpenter/pkg/metrics], whose source is not part of
    this repository's files.  The generated reference page and the spec's
    example ([Namespace="karpenter"]) give its value. *)
Definition metrics_Namespace : string := "karpenter".

Definition identMapping : gmap string string :=
  list_to_map
    [("metrics.Namespace", metrics_Namespace);
     ("Namespace", metrics_Namespace);
     ("MetricNamespace", "operator");
     ("MetricSubsystem", "status_condition");
     ("TerminationSubsystem", "termination");
     ("WorkQueueSubsystem", "workqueue");
     ("DepthKey", "depth");
     ("AddsKey", "adds_total");
     ("QueueLatencyKey", "queue_duration_seconds");
     ("WorkDurationKey", "work_duration_seconds");
     ("UnfinishedWorkKey", "unfinished_work_seconds");
     ("LongestRunningProcessorKey", "longest_running_processor_seconds");
     ("RetriesKey", "retries_total");
     ("metrics.PodSubsystem", "pods");
     ("NodeSubsystem", "nodes");
     ("metrics.NodeSubsystem", "nodes");
     ("machineSubsystem", "machines");
     ("NodeClaimSubsystem", "nodeclaims");
     ("metrics.NodeClaimSubsystem", "nodeclaims");
     ("nodePoolSubsystem", "nodepools");
     ("metrics.NodePoolSubsystem", "nodepools");
     ("interruptionSubsystem", "interruption");
     ("deprovisioningSubsystem", "deprovisioning");
     ("voluntaryDisruptionSubsystem", "voluntary_disruption");
     ("batcherSubsystem", "cloudprovider_batcher");
     ("cloudProviderSubsystem", "cloudprovider");
     ("stateSubsystem", "cluster_state");
     ("schedulerSubsystem", "scheduler")].

(** [getIdentMapping]: the mapped value, or the error that carries the
    identifier's name. *)
Definition getIdentMapping (identName : string) : result string :=
  match identMapping !! identName with
  | Some v => Ok v
  | None => Fatal (NoIdentifierMapping identName)
  end.

(** [getBinaryExpr b] for [b = BinaryExpr X Y].  An operand is a literal
    (trimmed of its quotes) or again a binary expression; anything else is
    fatal.  The type [*ast.BinaryExpr] of the parameter excludes the last
    case of the outer match. *)
Fixpoint getBinaryExpr (b : expr) : result string :=
  match b with
  | BinaryExpr bX bY =>
      do x <- match bX with
              | BasicLit v => Ok (Go.TrimQuotes v)
              | BinaryExpr _ _ => getBinaryExpr bX
              | _ => Fatal (UnsupportedValue bX)
              end;
      do y <- match bY with
              | BasicLit v => Ok (Go.TrimQuotes v)
              | BinaryExpr _ _ => getBinaryExpr bY
              | _ => Fatal (UnsupportedValue bY)
              end;
      Ok (x +:+ y)
  | _ => Fatal (UnsupportedValue b)
  end.

(** ** The declaration scanner *)

Section Scanner.
Context (G : runtime).

(** [fmt.Sprintf("%s", e)] for a syntax node: [*ast.Ident] has a [String]
    method and prints its name; every other node is a pointer to a struct
    and prints as [&{...}]. *)
Definition exprString (e : expr) : string :=
  match e with
  | Ident Name => Name
  | _ => "&{" +:+ fmtFields G e +:+ "}"
  end.

Fixpoint getFuncPackage (fn : expr) : result string :=
  match fn with
  | ParenExpr X => getFuncPackage X
  | StarExpr X => getFuncPackage X
  | SelectorExpr X _ => Ok (exprString X)
  | Ident Name => Ok Name
  | IndexExpr X => getFuncPackage X
  | FuncLit => Ok ""
  | _ => Fatal (UnsupportedFuncExpression fn)
  end.

(** The [switch val := kv.Value.(type)] of [handleVariableDeclaration]: the
    value of a field before its quotes are trimmed. *)
Definition fieldValue (val : expr) : result string :=
  match val with
  | BasicLit Value => Ok Value
  | SelectorExpr X Sel =>
      let selector := exprString X +:+ "." +:+ Sel in
      match getIdentMapping selector with
      | Ok v => Ok v
      | Fatal _ => Fatal (UnsupportedSelector selector)
      end
  | Ident Name => getIdentMapping Name
  | BinaryExpr _ _ => getBinaryExpr val
  | _ => Fatal (UnsupportedValue val)
  end.

(** A field as it is stored: resolved, then trimmed of its quotes. *)
Definition resolveField (val : expr) : result string :=
  do value <- fieldValue val; Ok (Go.TrimQuotes value).

Definition metricKeys : list string := ["Namespace"; "Subsystem"; "Name"; "Help"].

(** One element of a composite literal, against the map of the fields found
    so far. *)
Definition scanElement (keyValuePairs : gmap string string) (el : expr)
  : result (gmap string string) :=
  match el with
  | KeyValueExpr Key Value =>
      let key := exprString Key in
      if bool_decide (key ∈ metricKeys) then
        do value <- resolveField Value; Ok (<[key := value]> keyValuePairs)
      else Ok keyValuePairs
  | _ => Ok keyValuePairs
  end.

Fixpoint scanElements (keyValuePairs : gmap string string) (Elts : list expr)
  : result (gmap string string) :=
  match Elts with
  | [] => Ok keyValuePairs
  | el :: rest => do m <- scanElement keyValuePairs el; scanElements m rest
  end.

(** Reading a missing key of a Go map gives the zero value. *)
Definition index (keyValuePairs : gmap string string) (key : string) : string :=
  default "" (keyValuePairs !! key).

Definition recordOf (keyValuePairs : gmap string string) : metricInfo :=
  {| namespace := index keyValuePairs "Namespace";
     subsystem := index keyValuePairs "Subsystem";
     name := index keyValuePairs "Name";
     help := index keyValuePairs "Help" |}.

(** One argument of an accepted call: a composite literal gives one record. *)
Definition scanArgument (arg : expr) : result (list metricInfo) :=
  match arg with
  | CompositeLit Elts => do keyValuePairs <- scanElements ∅ Elts; Ok [recordOf keyValuePairs]
  | _ => Ok []
  end.

Definition acceptedQualifier (funcPkg : string) : bool :=
  bool_decide (funcPkg = "prometheus" ∨ funcPkg = "opmetrics").

(** One initializer of a value spec. *)
Definition scanInitializer (v : expr) : result (list metricInfo) :=
  match v with
  | CallExpr Fun Args =>
      do funcPkg <- getFuncPackage Fun;
      if acceptedQualifier funcPkg then appendEach scanArgument [] Args else Ok []
  | _ => Ok []
  end.

Definition scanSpec (s : spec) : result (list metricInfo) :=
  match s with
  | ValueSpec Values => appendEach scanInitializer [] Values
  | OtherSpec => Ok []
  end.

(** [handleVariableDeclaration(v)], on [v.Specs]. *)
Definition handleVariableDeclaration (Specs : list spec) : result (list metricInfo) :=
  appendEach scanSpec [] Specs.

Definition scanDecl (d : decl) : result (list metricInfo) :=
  match d with
  | GenDecl VAR Specs => handleVariableDeclaration Specs
  | _ => Ok []
  end.

Definition scanFile (f : file) : result (list metricInfo) := appendEach scanDecl [] f.

Definition scanPackage (pkg : package) : result (list metricInfo) :=
  appendEach scanFile [] (pkgFiles pkg).

Definition getMetricsFromPackages (packages : list package) : result (list metricInfo) :=
  appendEach scanPackage [] packages.

(** The packages of one parsed directory that are kept. *)
Definition keptPackages (d : parsedDir) : result (list package) :=
  match d with
  | ParseFailed err => Fatal (ErrorParsing err)
  | Parsed pkgs => Ok (filter (λ pkg, Go.HasSuffix (pkgName pkg) "_test" = false) pkgs)
  end.

Definition getPackages (w : world) (root : string) : result (list package) :=
  appendEach keptPackages [] (walkDir w root).

(** The first loop of [main]: every root is parsed, then scanned, in turn. *)
Definition scanRoot (w : world) (root : string) : result (list metricInfo) :=
  do packages <- getPackages w root; getMetricsFromPackages packages.

Definition scanRoots (w : world) (roots : list string) : result (list metricInfo) :=
  appendEach (scanRoot w) [] roots.

End Scanner.

(** ** The pattern synthesizer *)

Definition operatorMetric (kind : string) (m : string * string) : metricInfo :=
  {| namespace := "operator"; subsystem := kind; name := m.1; help := m.2 |}.

Definition statusMetrics (kind : string) : list (string * string) :=
  [("status_condition_transitions_total",
    "The count of transitions of a " +:+ kind +:+ ", type and status.");
   ("status_condition_transition_seconds",
    "The amount of time a condition was in a given state before transitioning.");
   ("status_condition_current_status_seconds",
    "The current amount of time in seconds that a status condition has been in a specific state.");
   ("status_condition_count",
    "The number of a condition for a " +:+ kind +:+ ", type and status.")].

Definition terminationMetrics (kind : string) : list (string * string) :=
  [("termination_current_time_seconds",
    "The current amount of time in seconds that a " +:+ kind +:+ " has been in terminating state.");
   ("termination_duration_seconds",
    "The amount of time taken by a " +:+ kind +:+ " to terminate completely.")].

Definition crdKinds : list string := ["nodeclaim"; "nodepool"; "ec2nodeclass"; "node"].

(** The body of the loop over [crdKinds]. *)
Definition addKindMetrics (allMetrics : list metricInfo) (kind : string) : list metricInfo :=
  let allMetrics := allMetrics ++ map (operatorMetric kind) (statusMetrics kind) in
  let allMetrics := allMetrics ++ map (operatorMetric kind) (terminationMetrics kind) in
  if bool_decide (kind = "node") then
    allMetrics ++ [ {| namespace := "operator"; subsystem := "node"; name := "event_total";
                       help := "The total number of events of a given type and reason for a node" |} ]
  else allMetrics.

Definition legacyStatusMetrics : list (string * string) :=
  [("transitions_total", "The count of transitions of a given object, type and status.");
   ("transition_seconds", "The amount of time a condition was in a given state before transitioning.");
   ("current_status_seconds",
    "The current amount of time in seconds that a status condition has been in a specific state.");
   ("count", "The number of a condition for a given object, type and status.")].

Definition legacyTerminationMetrics : list (string * string) :=
  [("duration_seconds", "The amount of time taken by an object to terminate completely.");
   ("current_time_seconds",
    "The current amount of time in seconds that an object has been in terminating state.")].

Definition addPatternBasedMetrics (allMetrics : list metricInfo) : list metricInfo :=
  let allMetrics := fold_left addKindMetrics crdKinds allMetrics in
  let allMetrics := allMetrics ++ map (operatorMetric "status_condition") legacyStatusMetrics in
  let allMetrics := allMetrics ++ map (operatorMetric "termination") legacyTerminationMetrics in
  let allMetrics := allMetrics ++
    [ {| namespace := ""; subsystem := ""; name := "client_go_request_total";
         help := "Number of HTTP requests, partitioned by status code and method." |} ] in
  allMetrics ++
    [ {| namespace := ""; subsystem := ""; name := "client_go_request_duration_seconds";
         help := "Request latency in seconds. Broken down by verb, group, version, kind, and subresource." |} ].

(** ** The normalizer *)

(** The key of the dedupe: [fmt.Sprintf("%s/%s/%s", m.namespace, m.subsystem, m.name)]. *)
Definition dedupeKey (m : metricInfo) : string :=
  namespace m +:+ "/" +:+ subsystem m +:+ "/" +:+ name m.

Definition dedupe (allMetrics : list metricInfo) : list metricInfo :=
  Go.UniqBy allMetrics dedupeKey.

Definition droppedPrefixes : list string :=
  ["rest_client"; "certwatcher_read"; "controller_runtime_webhook"].

Definition dropMetrics (allMetrics : list metricInfo) : list metricInfo :=
  fold_left (λ allMetrics prefix, Go.Reject allMetrics (λ m, Go.HasPrefix (name m) prefix))
            droppedPrefixes allMetrics.

Definition foldedSubsystems : list string :=
  ["controller_runtime"; "aws_sdk_go"; "client_go"; "leader_election"].

(** The body of the inner loop, on [allMetrics[i]]. *)
Definition foldPrefix (prefix : string) (m : metricInfo) : metricInfo :=
  if bool_decide (subsystem m = "") && Go.HasPrefix (name m) (prefix +:+ "_") then
    {| namespace := namespace m; subsystem := prefix;
       name := Go.TrimPrefix (name m) (prefix +:+ "_"); help := help m |}
  else m.

(** The two nested loops: for each prefix, every element is updated in place. *)
Definition foldPrefixes (allMetrics : list metricInfo) : list metricInfo :=
  fold_left (λ allMetrics prefix, map (foldPrefix prefix) allMetrics) foldedSubsystems allMetrics.

(** What [main] does to the scanned records before it sorts them. *)
Definition normalize (scanned : list metricInfo) : list metricInfo :=
  foldPrefixes (dropMetrics (dedupe (addPatternBasedMetrics scanned))).

(** ** The sort *)

Definition subSystemSortOrder : gmap string Z :=
  list_to_map
    [("", 100); ("nodepool", 10); ("nodepools", 10); ("nodeclaims", 9); ("nodeclaim", 9);
     ("nodes", 8); ("node", 8); ("pods", 7); ("status_condition", -1); ("workqueue", -1);
     ("client_go", -1); ("aws_sdk_go", -1); ("leader_election", -2)].

(** [subSystemSortOrder[s]]: the zero value for a missing key. *)
Definition priority (s : string) : Z := default 0 (subSystemSortOrder !! s).

(** Go's [>] on strings: byte-wise lexicographic. *)
Definition stringGt (a b : string) : bool :=
  match String.compare a b with Gt => true | _ => false end.

(** The [less] function that [bySubsystem] returns, on the two elements it
    reads from the slice. *)
Definition bySubsystem (lhs rhs : metricInfo) : bool :=
  if bool_decide (priority (subsystem lhs) ≠ priority (subsystem rhs)) then
    bool_decide (priority (subsystem lhs) > priority (subsystem rhs))
  else stringGt (qualifiedName lhs) (qualifiedName rhs).

(** ** The renderer *)

Definition subsystemMap : gmap string string :=
  list_to_map
    [("node", "Nodes"); ("nodes", "Nodes"); ("nodeclaim", "Nodeclaims");
     ("nodeclaims", "Nodeclaims"); ("nodepool", "Nodepools"); ("nodepools", "Nodepools")].

(** The function mapped over the words of a subsystem.  [None] is the
    runtime panic of [s[0:1]] on the empty string (slice bounds out of
    range). *)
Definition titleWord (s : string) : option string :=
  if bool_decide (s = "sdk" ∨ s = "aws") then Some (Go.ToUpperASCII s)
  else match s with
       | EmptyString => None
       | String c rest => Some (Go.ToUpper1 c +:+ rest)
       end.

(** The title of a non-empty subsystem; [lo.Map] calls [titleWord] on the
    words from left to right, so the first panic ends it. *)
Definition subsystemTitle (s : string) : option string :=
  match subsystemMap !! s with
  | Some val => Some val
  | None => words ← mapM titleWord (Go.Split s); Some (Go.Join words " ")
  end.

Inductive stabilityLevel : Type := DEPRECATED | STABLE | BETA | ALPHA.

(** [slices.Contains]. *)
Definition Contains (l : list string) (s : string) : bool := bool_decide (s ∈ l).

(** The [switch] that picks the stability line of a metric. *)
Definition stabilityOf (metric : metricInfo) : stabilityLevel :=
  if Contains deprecatedMetrics (subsystem metric)
     || Contains deprecatedMetrics (qualifiedName metric) then DEPRECATED
  else if Contains stableMetrics (subsystem metric)
          || Contains stableMetrics (qualifiedName metric) then STABLE
  else if Contains betaMetrics (subsystem metric)
          || Contains betaMetrics (qualifiedName metric) then BETA
  else ALPHA.

Definition levelText (l : stabilityLevel) : string :=
  match l with
  | DEPRECATED => "DEPRECATED"
  | STABLE => "STABLE"
  | BETA => "BETA"
  | ALPHA => "ALPHA"
  end.

(** What the loop writes, one value per group of [Fprintf] calls: the
    heading of a group, and the block of one metric. *)
Inductive chunk : Type :=
| GroupHeading (title : string)
| MetricEntry (qualified helpText : string) (level : stabilityLevel).

Definition chunkText (c : chunk) : string :=
  match c with
  | GroupHeading title => "## " +:+ title +:+ " Metrics" +:+ Go.nl +:+ Go.nl
  | MetricEntry qualified helpText level =>
      "### `" +:+ qualified +:+ "`" +:+ Go.nl
      +:+ helpText +:+ Go.nl
      +:+ "- Stability Level: " +:+ levelText level +:+ Go.nl
      +:+ Go.nl
  end.

Definition quoted (s : string) : string := String Go.quote (s +:+ String Go.quote "").

Definition preamble : string :=
  "---" +:+ Go.nl
  +:+ "title: " +:+ quoted "Metrics" +:+ Go.nl
  +:+ "linkTitle: " +:+ quoted "Metrics" +:+ Go.nl
  +:+ "weight: 7" +:+ Go.nl
  +:+ Go.nl
  +:+ "description: >" +:+ Go.nl
  +:+ "  Inspect Karpenter Metrics" +:+ Go.nl
  +:+ "---" +:+ Go.nl
  +:+ "<!-- this document is generated from hack/docs/metrics_gen_docs.go -->" +:+ Go.nl
  +:+ "Karpenter makes several metrics available in Prometheus format to allow monitoring cluster provisioning status. "
  +:+ "These metrics are available by default at `karpenter.kube-system.svc.cluster.local:8080/metrics` configurable via the `METRICS_PORT` environment variable documented [here](../settings)"
  +:+ Go.nl.

(** The bytes of the output file after the given chunks were written. *)
Definition documentText (body : list chunk) : string :=
  preamble +:+ String.concat "" (map chunkText body).

(** The first half of an iteration: the group heading, and the new
    [previousTitle]; [None] when the title derivation panics. *)
Definition renderGroup (previousTitle : string) (metric : metricInfo)
  : option (list chunk * string) :=
  if bool_decide (subsystem metric ≠ "") then
    title ← subsystemTitle (subsystem metric);
    if bool_decide (title ≠ previousTitle) then Some ([GroupHeading title], title)
    else Some ([], previousTitle)
  else Some ([], previousTitle).

(** The second half: the block of the metric, unless its qualified name is
    empty. *)
Definition renderEntry (metric : metricInfo) : list chunk :=
  if bool_decide (qualifiedName metric ≠ "") then
    [MetricEntry (qualifiedName metric) (help metric) (stabilityOf metric)]
  else [].

Inductive rendering : Type :=
| Completed (body : list chunk)
| Panic (partial : list chunk).

(** The loop over the sorted metrics, from what is written so far. *)
Fixpoint renderMetrics (written : list chunk) (previousTitle : string)
  (allMetrics : list metricInfo) : rendering :=
  match allMetrics with
  | [] => Completed written
  | metric :: rest =>
      match renderGroup previousTitle metric with
      | None => Panic written
      | Some (heading, previousTitle') =>
          renderMetrics (written ++ heading ++ renderEntry metric) previousTitle' rest
      end
  end.

(** ** The run *)

(** How a run ends: in [log.Fatal], with the document written, or in a
    panic after the file was created. *)
Inductive outcome : Type :=
| Aborted (d : fatal)
| Written (body : list chunk)
| Panicked (partial : list chunk).

(** What the run wrote to the output path, if it wrote at all. *)
Definition outputFile (o : outcome) : option string :=
  match o with
  | Aborted _ => None
  | Written body => Some (documentText body)
  | Panicked partial => Some (documentText partial)
  end.

(** The records in the order in which the renderer walks them. *)
Definition sortedMetrics (G : runtime) (scanned : list metricInfo) : list metricInfo :=
  sortSlice G (normalize scanned) bySubsystem.

(** [main], on the positional arguments: the roots, then the output path. *)
Definition main (G : runtime) (w : world) (args : list string) : outcome :=
  if (length args <? 2)%nat then Aborted Usage
  else
    match scanRoots G w (take (length args - 1) args) with
    | Fatal d => Aborted d
    | Ok scanned =>
        let allMetrics := sortedMetrics G scanned in
        let outputFileName := default "" (last args) in
        if createSucceeds w outputFileName then
          match renderMetrics [] "" allMetrics with
          | Completed body => Written body
          | Panic partial => Panicked partial
          end
        else Aborted (ErrorCreatingOutputFile outputFileName)
    end.

(** * Notions used in the statements *)

(** ** Folding, rendering, ordering *)

(** The prefixes applied to one record, in the order of the outer loop. *)
Definition foldRecordFrom (prefixes : list string) (m : metricInfo) : metricInfo :=
  fold_left (λ m prefix, foldPrefix prefix m) prefixes m.

(** What the two loops of the fold do to one record. *)
Definition foldRecord (m : metricInfo) : metricInfo := foldRecordFrom foldedSubsystems m.

(** The chunks written by the renderer's loop, whether it completed or not. *)
Definition bodyOf (r : rendering) : list chunk :=
  match r with
  | Completed body => body
  | Panic partial => partial
  end.

(** The record of a composite literal without any of the four keys. *)
Definition emptyRecord : metricInfo :=
  {| namespace := ""; subsystem := ""; name := ""; help := "" |}.

Definition isCompositeLit (arg : expr) : bool :=
  match arg with
  | CompositeLit _ => true
  | _ => false
  end.

(** The elements that are no key-value pair with one of the four keys. *)
Definition carriesNoField (G : runtime) (el : expr) : Prop :=
  ∀ Key Value, el = KeyValueExpr Key Value → exprString G Key ∉ metricKeys.


(** ** Trimmed strings and chains of literals *)

Definition startsWithQuote (s : string) : bool :=
  match s with
  | String c _ => Ascii.eqb c Go.quote
  | EmptyString => false
  end.

Fixpoint endsWithQuote (s : string) : bool :=
  match s with
  | EmptyString => false
  | String c EmptyString => Ascii.eqb c Go.quote
  | String _ s' => endsWithQuote s'
  end.

(** No quote at either end: trimming changes nothing. *)
Definition trimmed (s : string) : Prop :=
  startsWithQuote s = false ∧ endsWithQuote s = false.

(** A string literal, or a concatenation whose operands are again such. *)
Inductive literalChain : expr → Prop :=
| chain_literal Value : literalChain (BasicLit Value)
| chain_concat X Y : literalChain X → literalChain Y → literalChain (BinaryExpr X Y).

(** The literals of a chain, each without its quotes, from left to right. *)
Fixpoint chainText (e : expr) : string :=
  match e with
  | BasicLit Value => Go.TrimQuotes Value
  | BinaryExpr X Y => chainText X +:+ chainText Y
  | _ => ""
  end.

(** An operand of [getBinaryExpr], as its two [switch] statements treat it. *)
Definition binaryOperand (val : expr) : result string :=
  match val with
  | BasicLit Value => Ok (Go.TrimQuotes Value)
  | BinaryExpr _ _ => getBinaryExpr val
  | _ => Fatal (UnsupportedValue val)
  end.

(** The operands of a concatenation at any depth, from left to right: the
    nodes that the two [switch] statements of [getBinaryExpr] meet and that
    are not binary expressions themselves. *)
Fixpoint operands (e : expr) : list expr :=
  match e with
  | BinaryExpr X Y => operands X ++ operands Y
  | _ => [e]
  end.

Definition isBasicLit (e : expr) : bool :=
  match e with
  | BasicLit _ => true
  | _ => false
  end.

(** The leftmost operand that is no string literal. *)
Definition firstUnsupported (e : expr) : option expr :=
  head (filter (λ operand, isBasicLit operand = false) (operands e)).

(** ** Inputs on which the run is determined *)

(** No two different elements of the slice are unordered by [less]. *)
Definition noTies {A} (less : A → A → bool) (x : list A) : Prop :=
  Forall (λ a, Forall (λ b, less a b = false → less b a = false → a = b) x) x.

Global Instance noTies_dec {A} `{EqDecision A} (less : A → A → bool) (x : list A) :
  Decision (noTies less x).
Proof. unfold noTies. apply _. Defined.

(** Every subsystem of the list has a title. *)
Definition titled (allMetrics : list metricInfo) : Prop :=
  Forall (λ m, subsystem m = "" ∨ is_Some (subsystemTitle (subsystem m))) allMetrics.

Global Instance titled_dec (allMetrics : list metricInfo) : Decision (titled allMetrics).
Proof. unfold titled. apply _. Defined.

(** The identity of a record: help text is not part of it. *)
Definition identity (m : metricInfo) : string * string * string :=
  (namespace m, subsystem m, name m).

(** ** Source trees to evaluate on *)

(** [var _ = prometheus.NewCounterVec(prometheus.CounterOpts{fields}, []string{})]:
    a variable declaration of one counter vector with the given fields and an
    empty list of label names. *)
Definition declaring (fields : list (string * expr)) : decl :=
  GenDecl VAR
    [ValueSpec
       [CallExpr (SelectorExpr (Ident "prometheus") "NewCounterVec")
          [CompositeLit (map (λ kv, KeyValueExpr (Ident kv.1) kv.2) fields);
           CompositeLit []]]].

(** One directory with one package [metrics] of the given files, under
    every root; every output path can be created. *)
Definition sourceTree (files : list file) : world :=
  {| walkDir := λ _, [Parsed [ {| pkgName := "metrics"; pkgFiles := files |} ]];
     createSucceeds := λ _, true |}.

(** The string literal whose source text is [s] between two quotes. *)
Definition literal (s : string) : expr := BasicLit (quoted s).

(** Something holds of the document in every run on the given tree:
    whatever [sort.Slice] does with ties and whatever [fmt] prints for a
    syntax node, the run writes the document and it is as stated. *)
Definition everyRun (w : world) (args : list string) (P : list chunk → Prop) : Prop :=
  ∀ G, ∃ body, main G w args = Written body ∧ P body.

(** ** Unresolved symbols and where they stand *)

(** The identifiers a field value refers to: itself when it is an
    identifier or a selector, those of its operands when it is a binary
    expression. *)
Fixpoint references (G : runtime) (val : expr) (ident : string) : Prop :=
  match val with
  | Ident Name => Name = ident
  | SelectorExpr X Sel => exprString G X +:+ "." +:+ Sel = ident
  | BinaryExpr X Y => references G X ident ∨ references G Y ident
  | _ => False
  end.

(** The field value is itself a symbol. *)
Definition isSymbol (val : expr) : Prop :=
  match val with
  | Ident _ | SelectorExpr _ _ => True
  | _ => False
  end.

(** The diagnostic names the identifier: as the identifier of the error, as
    the selector of the message, or in the printed unsupported value. *)
Definition diagnosticNames (G : runtime) (d : fatal) (ident : string) : Prop :=
  match d with
  | NoIdentifierMapping identName => identName = ident
  | UnsupportedSelector selector => selector = ident
  | UnsupportedValue val => references G val ident
  | _ => False
  end.

(** Where an element stands in a loop: anywhere, or as the first element
    that is fatal. *)
Definition position : Type := ∀ A B : Type, (A → result B) → list A → A → Prop.

Definition anywhere : position := λ A B f l x, x ∈ l.

Definition firstFatal : position :=
  λ A B f l x, ∃ l1 l2, l = l1 ++ x :: l2 ∧ Forall (λ y, ∃ r, f y = Ok r) l1.

(** The field value [val] is the value of one of the four keys in a
    composite-literal argument of an accepted call that initializes a
    package-level variable of a kept package under one of the roots, at the
    given position of each loop on the way. *)
Definition fieldAt (pos : position) (G : runtime) (w : world) (roots : list string)
  (val : expr) : Prop :=
  ∃ root packages pkg f Specs Values Fun Args funcPkg Elts Key,
    pos _ _ (scanRoot G w) roots root
    ∧ getPackages w root = Ok packages
    ∧ pos _ _ (scanPackage G) packages pkg
    ∧ pos _ _ (scanFile G) (pkgFiles pkg) f
    ∧ pos _ _ (scanDecl G) f (GenDecl VAR Specs)
    ∧ pos _ _ (scanSpec G) Specs (ValueSpec Values)
    ∧ pos _ _ (scanInitializer G) Values (CallExpr Fun Args)
    ∧ getFuncPackage G Fun = Ok funcPkg
    ∧ acceptedQualifier funcPkg = true
    ∧ pos _ _ (scanArgument G) Args (CompositeLit Elts)
    ∧ pos _ _ (scanElement G ∅) Elts (KeyValueExpr Key val)
    ∧ exprString G Key ∈ metricKeys.

(** How a fatal element makes its loop fatal: at [pos], with a diagnostic
    related by [rel] to the element's. *)
Definition carries (pos : position) (rel : relation fatal) : Prop :=
  (∀ A B (f : A → result (list B)) acc l x d,
     pos _ _ f l x → f x = Fatal d → ∃ d', appendEach f acc l = Fatal d' ∧ rel d d')
  ∧ (∀ G m Elts el d,
       pos _ _ (scanElement G ∅) Elts el → scanElement G ∅ el = Fatal d →
       ∃ d', scanElements G m Elts = Fatal d' ∧ rel d d').

(** ** The same sources, seen by two runs *)






(** Records with the same dedupe key are the same record, help text
    included. *)
Definition sameKeySameRecord (allMetrics : list metricInfo) : Prop :=
  Forall (λ a, Forall (λ b, dedupeKey a = dedupeKey b → a = b) allMetrics) allMetrics.

Global Instance sameKeySameRecord_dec (allMetrics : list metricInfo) :
  Decision (sameKeySameRecord allMetrics).
Proof. unfold sameKeySameRecord. apply _. Defined.

(** ** The scanner: callees, declarations, resolvable values *)

(** The called expression without the parentheses, pointer stars and index
    expressions around it. *)
Fixpoint calleeCore (fn : expr) : expr :=
  match fn with
  | ParenExpr X | StarExpr X | IndexExpr X => calleeCore X
  | _ => fn
  end.

Definition isVarDecl (d : decl) : bool :=
  match d with
  | GenDecl VAR _ => true
  | _ => false
  end.

Definition isValueSpec (s : spec) : bool :=
  match s with
  | ValueSpec _ => true
  | OtherSpec => false
  end.

Definition isCallExpr (v : expr) : bool :=
  match v with
  | CallExpr _ _ => true
  | _ => false
  end.

(** The field values that resolve. *)
Definition resolvable (G : runtime) (val : expr) : Prop :=
  match val with
  | BasicLit _ => True
  | Ident Name => is_Some (identMapping !! Name)
  | SelectorExpr X Sel => is_Some (identMapping !! (exprString G X +:+ "." +:+ Sel))
  | BinaryExpr X Y => literalChain X ∧ literalChain Y
  | _ => False
  end.

(** ** Keys and help texts *)

(** The number of [/] bytes of a string. *)
Fixpoint slashes (s : string) : nat :=
  match s with
  | EmptyString => O
  | String c s' => ((if Ascii.eqb c "/" then 1 else 0) + slashes s')%nat
  end.

(** No field of the identity holds a [/]. *)
Definition slashFree (m : metricInfo) : Prop :=
  slashes (namespace m) = O ∧ slashes (subsystem m) = O ∧ slashes (name m) = O.

(** The record with another help text. *)
Definition withHelp (h : string) (m : metricInfo) : metricInfo :=
  {| namespace := namespace m; subsystem := subsystem m; name := name m; help := h |}.

(** ** The parts of a document *)

(** The block of a record. *)
Definition entryOf (m : metricInfo) : chunk :=
  MetricEntry (qualifiedName m) (help m) (stabilityOf m).

Definition isEntry (c : chunk) : bool :=
  match c with
  | MetricEntry _ _ _ => true
  | GroupHeading _ => false
  end.

(** The metric blocks of a document, and the titles of its group headings,
    each in the order of the document. *)
Definition entries (body : list chunk) : list chunk := filter (λ c, isEntry c = true) body.

Definition headings (body : list chunk) : list string :=
  omap (λ c, match c with GroupHeading title => Some title | MetricEntry _ _ _ => None end) body.

(** The records that have a qualified name. *)
Definition named (allMetrics : list metricInfo) : list metricInfo :=
  filter (λ m, qualifiedName m ≠ "") allMetrics.

(** No title repeats the one before it, the first is not [previousTitle]. *)
Fixpoint noRepeat (previousTitle : string) (titles : list string) : Prop :=
  match titles with
  | [] => True
  | title :: rest => title ≠ previousTitle ∧ noRepeat title rest
  end.

(** The group that is open after [written]: the last heading written is
    that of [previousTitle]. *)
Definition openGroup (written : list chunk) (previousTitle : string) : Prop :=
  previousTitle = ""
  ∨ ∃ b1 es, written = b1 ++ GroupHeading previousTitle :: es
             ∧ Forall (λ c, isEntry c = true) es.

(** ** A runtime to evaluate with *)

Section ReferenceSort.
Context {A : Type} (less : A → A → bool).

Lemma notAfter_total : strictWeakOrder less → Total (notAfter less).
Proof.
  intros [Hasym _] a b. unfold notAfter.
  destruct (less b a) eqn:E; [right; by apply Hasym | by left].
Qed.

Lemma notAfter_transitive : strictWeakOrder less → Transitive (notAfter less).
Proof. intros [_ Htrans] a b c Hab Hbc. unfold notAfter in *. by eapply Htrans. Qed.

Lemma merge_sort_sorted (x : list A) :
  strictWeakOrder less → StronglySorted (notAfter less) (merge_sort (notAfter less) x).
Proof.
  intros Hless.
  pose proof (notAfter_total Hless). pose proof (notAfter_transitive Hless).
  by apply StronglySorted_merge_sort.
Qed.

End ReferenceSort.

(** A stable merge sort for [sort.Slice] and an empty field dump. *)
Definition referenceRuntime : runtime :=
  {| sortSlice := λ A x less, merge_sort (notAfter less) x;
     sortSlice_Permutation := λ A x less, merge_sort_Permutation (notAfter less) x;
     sortSlice_sorted := λ A x less, merge_sort_sorted less x;
     fmtFields := λ _, "" |}.

(** * Properties *)

Ltac by_compute := apply (bool_decide_unpack _); vm_compute; exact I.

(** ** The order on strings *)

Lemma ascii_compare_refl (c : ascii) : Ascii.compare c c = Eq.
Proof. unfold Ascii.compare. apply N.compare_refl. Qed.

Lemma ascii_compare_lt_trans (a b c : ascii) :
  Ascii.compare a b = Lt → Ascii.compare b c = Lt → Ascii.compare a c = Lt.
Proof. unfold Ascii.compare. rewrite !N.compare_lt_iff. lia. Qed.

Lemma string_compare_refl (s : string) : String.compare s s = Eq.
Proof. induction s as [|c s IH]; simpl; [done|]. by rewrite ascii_compare_refl. Qed.

Lemma string_compare_lt_trans (a b c : string) :
  String.compare a b = Lt → String.compare b c = Lt → String.compare a c = Lt.
Proof.
  revert b c. induction a as [|x a IH]; intros [|y b] [|z c]; simpl; try done.
  destruct (Ascii.compare x y) eqn:Hxy; try done.
  - apply Ascii.compare_eq_iff in Hxy as ->.
    destruct (Ascii.compare y z); try done. apply IH.
  - destruct (Ascii.compare y z) eqn:Hyz; try done.
    + apply Ascii.compare_eq_iff in Hyz as <-. by rewrite Hxy.
    + by rewrite (ascii_compare_lt_trans _ _ _ Hxy Hyz).
Qed.

Lemma string_compare_gt_lt (a b : string) :
  String.compare a b = Gt ↔ String.compare b a = Lt.
Proof.
  rewrite (String.compare_antisym a b). destruct (String.compare b a); simpl; split; congruence.
Qed.

(** [a > b] is false and [b > c] is false: then [a > c] is false. *)
Lemma stringGt_negtrans (a b c : string) :
  stringGt a b = false → stringGt b c = false → stringGt a c = false.
Proof.
  unfold stringGt. intros Hab Hbc.
  destruct (String.compare a b) eqn:E1; try done.
  { apply String.compare_eq_iff in E1 as ->. done. }
  destruct (String.compare b c) eqn:E2; try done.
  { apply String.compare_eq_iff in E2 as <-. by rewrite E1. }
  by rewrite (string_compare_lt_trans _ _ _ E1 E2).
Qed.

Lemma stringGt_asym (a b : string) : stringGt a b = true → stringGt b a = false.
Proof.
  unfold stringGt. destruct (String.compare a b) eqn:E; try done.
  apply string_compare_gt_lt in E. by rewrite E.
Qed.

(** Neither is greater: the strings are equal. *)
Lemma stringGt_antisym (a b : string) :
  stringGt a b = false → stringGt b a = false → a = b.
Proof.
  unfold stringGt. intros Hab Hba.
  destruct (String.compare a b) eqn:E; try done.
  - by apply String.compare_eq_iff.
  - apply string_compare_gt_lt in E. by rewrite E in Hba.
Qed.

(** ** [bySubsystem] is a strict weak ordering *)

Lemma bySubsystem_false (a b : metricInfo) :
  bySubsystem a b = false ↔
  priority (subsystem a) < priority (subsystem b)
  ∨ (priority (subsystem a) = priority (subsystem b)
     ∧ stringGt (qualifiedName a) (qualifiedName b) = false).
Proof.
  unfold bySubsystem. case_bool_decide as Hne.
  - rewrite bool_decide_eq_false. lia.
  - split; [intros; right; split; [lia|done] | intros [?|[_ ?]]; [lia|done]].
Qed.

Lemma bySubsystem_true (a b : metricInfo) :
  bySubsystem a b = true ↔
  priority (subsystem a) > priority (subsystem b)
  ∨ (priority (subsystem a) = priority (subsystem b)
     ∧ stringGt (qualifiedName a) (qualifiedName b) = true).
Proof.
  unfold bySubsystem. case_bool_decide as Hne.
  - rewrite bool_decide_eq_true. lia.
  - split; [intros; right; split; [lia|done] | intros [?|[_ ?]]; [lia|done]].
Qed.

Lemma bySubsystem_strictWeakOrder : strictWeakOrder bySubsystem.
Proof.
  split.
  - intros a b [H|[He H]]%bySubsystem_true; apply bySubsystem_false; [lia|].
    right. split; [done|]. by apply stringGt_asym.
  - intros a b c [H1|[E1 H1]]%bySubsystem_false [H2|[E2 H2]]%bySubsystem_false;
      apply bySubsystem_false; try lia.
    right. split; [lia|]. by eapply stringGt_negtrans.
Qed.

(** ** Strings: prefixes and appends *)

Lemma string_app_cons (c : ascii) (a b : string) : String c a +:+ b = String c (a +:+ b).
Proof. reflexivity. Qed.

Lemma string_app_nil_l (a : string) : "" +:+ a = a.
Proof. reflexivity. Qed.

Lemma string_app_assoc (a b c : string) : (a +:+ b) +:+ c = a +:+ (b +:+ c).
Proof.
  induction a as [|x a IH]; [done|].
  by rewrite !string_app_cons, IH.
Qed.

Lemma string_app_nil_r (a : string) : a +:+ "" = a.
Proof. induction a as [|x a IH]; [done|]. by rewrite string_app_cons, IH. Qed.

Lemma prefix_nil (s : string) : String.prefix "" s = true.
Proof. by destruct s. Qed.

Lemma HasPrefix_app (p rest : string) : Go.HasPrefix (p +:+ rest) p = true.
Proof.
  unfold Go.HasPrefix. induction p as [|c p IH]; [apply prefix_nil|].
  rewrite string_app_cons. simpl. by destruct (Ascii.ascii_dec c c).
Qed.

Lemma sliceFrom_app (p rest : string) : Go.sliceFrom (String.length p) (p +:+ rest) = rest.
Proof. induction p as [|c p IH]; [done|]. rewrite string_app_cons. apply IH. Qed.

Lemma TrimPrefix_app (p rest : string) : Go.TrimPrefix (p +:+ rest) p = rest.
Proof. unfold Go.TrimPrefix. by rewrite HasPrefix_app, sliceFrom_app. Qed.

(** ** C1: subsystem-less prefix folding *)

Lemma foldPrefixes_map (allMetrics : list metricInfo) :
  foldPrefixes allMetrics = map foldRecord allMetrics.
Proof.
  unfold foldPrefixes, foldRecord, foldRecordFrom. generalize foldedSubsystems as ps.
  intros ps. revert allMetrics.
  induction ps as [|p ps IH]; intros l; simpl.
  - by rewrite map_id.
  - rewrite IH, map_map. done.
Qed.

Lemma foldRecordFrom_cons (prefix : string) (prefixes : list string) (m : metricInfo) :
  foldRecordFrom (prefix :: prefixes) m = foldRecordFrom prefixes (foldPrefix prefix m).
Proof. reflexivity. Qed.

Lemma foldPrefix_miss (prefix : string) (m : metricInfo) :
  bool_decide (subsystem m = "") && Go.HasPrefix (name m) (prefix +:+ "_") = false →
  foldPrefix prefix m = m.
Proof. intros H. unfold foldPrefix. by rewrite H. Qed.

Lemma foldPrefix_named (prefix : string) (m : metricInfo) :
  subsystem m ≠ "" → foldPrefix prefix m = m.
Proof. intros Hne. apply foldPrefix_miss. by rewrite bool_decide_eq_false_2. Qed.

Lemma foldRecordFrom_named (prefixes : list string) (m : metricInfo) :
  subsystem m ≠ "" → foldRecordFrom prefixes m = m.
Proof.
  intros Hne. induction prefixes as [|p ps IH]; [done|].
  by rewrite foldRecordFrom_cons, foldPrefix_named.
Qed.

Lemma foldPrefix_hit (prefix rest : string) (m : metricInfo) :
  subsystem m = "" → name m = prefix +:+ "_" +:+ rest →
  foldPrefix prefix m
  = {| namespace := namespace m; subsystem := prefix; name := rest; help := help m |}.
Proof.
  intros Hs Hn. unfold foldPrefix.
  rewrite Hs, Hn, <- string_app_assoc, HasPrefix_app, TrimPrefix_app. done.
Qed.

Lemma foldRecord_hit (prefix rest : string) (m : metricInfo) :
  prefix ∈ foldedSubsystems → subsystem m = "" → name m = prefix +:+ "_" +:+ rest →
  foldRecord m
  = {| namespace := namespace m; subsystem := prefix; name := rest; help := help m |}.
Proof.
  intros Hin Hs Hn. unfold foldRecord, foldedSubsystems in *.
  repeat (apply elem_of_cons in Hin as [->|Hin]); [..|by apply elem_of_nil in Hin];
    repeat (rewrite foldRecordFrom_cons, foldPrefix_miss by (rewrite Hs, Hn; reflexivity));
    rewrite foldRecordFrom_cons, (foldPrefix_hit _ rest) by done;
    by rewrite foldRecordFrom_named.
Qed.

(** C1 (counterexample).  [workqueue] is not one of the folded prefixes: a
    record named [workqueue_depth] with an empty subsystem leaves the
    normalizer as it entered it, and the record the claim expects is not
    produced. *)
Lemma workqueue_depth_is_not_folded :
  let m := {| namespace := ""; subsystem := ""; name := "workqueue_depth"; help := "depth" |} in
  let expected := {| namespace := ""; subsystem := "workqueue"; name := "depth"; help := "depth" |} in
  foldPrefixes [m] = [m] ∧ m ∈ normalize [m] ∧ expected ∉ normalize [m].
Proof.
  split; [reflexivity|]. split.
  - apply (bool_decide_unpack _). vm_compute. done.
  - apply (bool_decide_unpack _). vm_compute. done.
Qed.

(** C1 (amended).  For a prefix of the fold set [controller_runtime],
    [aws_sdk_go], [client_go], [leader_election], a record with an empty
    subsystem whose name is [prefix_rest] leaves the fold with that prefix as
    its subsystem and [rest] as its name; every other record of the slice is
    folded on its own; and the folded record is not changed by folding again,
    so the move happens once. *)
Theorem prefix_folding (prefix rest : string) (m : metricInfo) (before after : list metricInfo) :
  prefix ∈ foldedSubsystems →
  subsystem m = "" →
  name m = prefix +:+ "_" +:+ rest →
  let folded := {| namespace := namespace m; subsystem := prefix; name := rest; help := help m |} in
  foldPrefixes (before ++ m :: after) = foldPrefixes before ++ folded :: foldPrefixes after
  ∧ foldPrefixes [folded] = [folded].
Proof.
  intros Hin Hs Hn folded. split.
  - rewrite !foldPrefixes_map, map_app. simpl.
    by rewrite (foldRecord_hit prefix rest).
  - rewrite foldPrefixes_map. simpl. unfold foldRecord. rewrite foldRecordFrom_named; [done|].
    simpl. intros ->. unfold foldedSubsystems in Hin.
    repeat (apply elem_of_cons in Hin as [?|Hin]; [done|]). by apply elem_of_nil in Hin.
Qed.

Lemma prefix_folding_witness :
  foldPrefixes
    ([ {| namespace := "karpenter"; subsystem := "nodes"; name := "created_total"; help := "h" |} ]
     ++ {| namespace := ""; subsystem := ""; name := "client_go_request_total"; help := "r" |}
     :: [])
  = foldPrefixes
      [ {| namespace := "karpenter"; subsystem := "nodes"; name := "created_total"; help := "h" |} ]
    ++ {| namespace := ""; subsystem := "client_go"; name := "request_total"; help := "r" |}
    :: foldPrefixes []
  ∧ foldPrefixes [ {| namespace := ""; subsystem := "client_go"; name := "request_total"; help := "r" |} ]
    = [ {| namespace := ""; subsystem := "client_go"; name := "request_total"; help := "r" |} ].
Proof.
  apply (prefix_folding "client_go" "request_total"
           {| namespace := ""; subsystem := ""; name := "client_go_request_total"; help := "r" |}).
  - apply (bool_decide_unpack _). vm_compute. exact I.
  - reflexivity.
  - reflexivity.
Defined.

(** ** The error monad and [appendEach] *)

Lemma appendEach_acc {A B} (f : A → result (list B)) (acc : list B) (l : list A) :
  appendEach f acc l = do r <- appendEach f [] l; Ok (acc ++ r).
Proof.
  revert acc. induction l as [|x l IH]; intros acc; simpl.
  - by rewrite app_nil_r.
  - destruct (f x) as [r|d]; simpl; [|done].
    rewrite (IH (acc ++ r)), (IH r). destruct (appendEach f [] l); simpl; [|done].
    by rewrite app_assoc.
Qed.

(** The loop returns when every element does, with the results appended
    in order. *)
Lemma appendEach_Ok {A B} (f : A → result (list B)) (acc : list B) (l : list A) (r : list B) :
  appendEach f acc l = Ok r ↔
  ∃ rs, Forall2 (λ x rx, f x = Ok rx) l rs ∧ r = acc ++ concat rs.
Proof.
  revert acc r. induction l as [|x l IH]; intros acc r; simpl.
  - split.
    + intros [= <-]. exists []. split; [constructor|]. by rewrite app_nil_r.
    + intros (rs & Hrs & ->). inv Hrs. simpl. by rewrite app_nil_r.
  - destruct (f x) as [rx|d] eqn:Hx; simpl.
    + rewrite IH. split.
      * intros (rs & Hrs & ->). exists (rx :: rs). split; [by constructor|].
        simpl. by rewrite app_assoc.
      * intros (rs & Hrs & ->). inv Hrs. rewrite Hx in *. simplify_eq.
        eexists. split; [done|]. simpl. by rewrite app_assoc.
    + split; [done|]. intros (rs & Hrs & _). inv Hrs. congruence.
Qed.

(** The loop is fatal exactly with the diagnostic of its first fatal element. *)
Lemma appendEach_Fatal {A B} (f : A → result (list B)) (acc : list B) (l : list A) (d : fatal) :
  appendEach f acc l = Fatal d ↔
  ∃ l1 x l2, l = l1 ++ x :: l2 ∧ Forall (λ y, ∃ r, f y = Ok r) l1 ∧ f x = Fatal d.
Proof.
  revert acc. induction l as [|x l IH]; intros acc; simpl.
  - split; [done|]. intros (l1 & y & l2 & Hl & _). by destruct l1.
  - destruct (f x) as [rx|dx] eqn:Hx; simpl.
    + rewrite IH. split.
      * intros (l1 & y & l2 & -> & Hl1 & Hy). exists (x :: l1), y, l2.
        split; [done|]. split; [|done]. constructor; eauto.
      * intros (l1 & y & l2 & Hl & Hl1 & Hy).
        destruct l1 as [|z l1]; simplify_eq/=; [congruence|].
        exists l1, y, l2. inv Hl1. done.
    + split.
      * intros [= ->]. exists [], x, l. split; [done|]. split; [constructor|done].
      * intros (l1 & y & l2 & Hl & Hl1 & Hy).
        destruct l1 as [|z l1]; simplify_eq/=; [congruence|].
        inv Hl1. destruct H1. congruence.
Qed.

(** A fatal element anywhere makes the loop fatal. *)
Lemma appendEach_elem_Fatal {A B} (f : A → result (list B)) (acc : list B) (l : list A) x d :
  x ∈ l → f x = Fatal d → ∃ d', appendEach f acc l = Fatal d'.
Proof.
  intros Hin Hx. destruct (appendEach f acc l) as [r|d'] eqn:E; [|eauto].
  apply appendEach_Ok in E as (rs & Hrs & _).
  apply list_elem_of_lookup in Hin as [i Hi].
  destruct (Forall2_lookup_l _ _ _ _ _ Hrs Hi) as (rx & _ & Hrx). congruence.
Qed.

(** What an element returns is part of what the loop returns. *)
Lemma appendEach_elem_Ok {A B} (f : A → result (list B)) (acc : list B) (l : list A) r x rx y :
  appendEach f acc l = Ok r → x ∈ l → f x = Ok rx → y ∈ rx → y ∈ r.
Proof.
  intros (rs & Hrs & ->)%appendEach_Ok Hin Hx Hy.
  apply list_elem_of_lookup in Hin as [i Hi].
  destruct (Forall2_lookup_l _ _ _ _ _ Hrs Hi) as (rx' & Hrs' & Hrx).
  assert (rx' = rx) as -> by congruence.
  apply elem_of_app. right. apply list_elem_of_In, in_concat. exists rx.
  split; apply list_elem_of_In; [by eapply list_elem_of_lookup_2|done].
Qed.

(** ** Qualified names *)

Lemma qualifiedName_empty (m : metricInfo) :
  qualifiedName m = "" ↔ namespace m = "" ∧ subsystem m = "" ∧ name m = "".
Proof.
  destruct m as [[|a ns] [|b ss] [|c nm] h]; simpl; split;
    try (intros (? & ? & ?); discriminate); try done.
  all: unfold qualifiedName, Go.Join, Go.Compact; simpl;
    repeat (destruct ns; destruct ss; destruct nm); simpl; try discriminate.
Qed.

(** ** The renderer, chunk by chunk *)

Lemma renderGroup_heading (previousTitle : string) (metric : metricInfo) heading previousTitle' :
  renderGroup previousTitle metric = Some (heading, previousTitle') →
  heading = [] ∨ ∃ title, heading = [GroupHeading title].
Proof.
  unfold renderGroup. case_bool_decide; [|intros [= <- <-]; by left].
  destruct (subsystemTitle (subsystem metric)) as [title|]; simpl; [|done].
  case_bool_decide; intros [= <- <-]; [right; by eexists | by left].
Qed.

Lemma renderGroup_panics (previousTitle : string) (metric : metricInfo) :
  renderGroup previousTitle metric = None ↔
  subsystem metric ≠ "" ∧ subsystemTitle (subsystem metric) = None.
Proof.
  unfold renderGroup. case_bool_decide as Hs.
  - destruct (subsystemTitle (subsystem metric)); simpl; [|done].
    case_bool_decide; split; try done; intros [_ ?]; done.
  - split; [done|]. intros [? _]. done.
Qed.

Lemma renderEntry_chunk (metric : metricInfo) (c : chunk) :
  c ∈ renderEntry metric ↔
  qualifiedName metric ≠ ""
  ∧ c = MetricEntry (qualifiedName metric) (help metric) (stabilityOf metric).
Proof.
  unfold renderEntry. case_bool_decide as Hq.
  - rewrite list_elem_of_singleton. split; [by intros -> | by intros [_ ->]].
  - rewrite elem_of_nil. split; [done | by intros [? _]].
Qed.

(** Every chunk of the body was there before, or is a heading, or is the
    block of a record with a non-empty qualified name. *)
Lemma renderMetrics_chunk written previousTitle allMetrics (c : chunk) :
  c ∈ bodyOf (renderMetrics written previousTitle allMetrics) →
  c ∈ written
  ∨ (∃ title, c = GroupHeading title)
  ∨ (∃ m, m ∈ allMetrics ∧ qualifiedName m ≠ ""
          ∧ c = MetricEntry (qualifiedName m) (help m) (stabilityOf m)).
Proof.
  revert written previousTitle.
  induction allMetrics as [|metric rest IH]; intros written previousTitle; simpl; [by left|].
  destruct (renderGroup previousTitle metric) as [[heading previousTitle']|] eqn:Hg;
    simpl; [|by left].
  intros [Hc|[Hc|(m & Hm & Hq & ->)]]%IH.
  - rewrite !elem_of_app in Hc. destruct Hc as [Hc|[Hc|Hc]]; [by left| |].
    + apply renderGroup_heading in Hg as [->|[title ->]].
      * by apply elem_of_nil in Hc.
      * apply list_elem_of_singleton in Hc. right; left. eauto.
    + apply renderEntry_chunk in Hc as [Hq ->]. right; right.
      exists metric. split; [left|done].
  - by right; left.
  - right; right. exists m. split; [by right|done].
Qed.

(** When the loop completes, what was written stays and every record with a
    non-empty qualified name has its block. *)
Lemma renderMetrics_complete written previousTitle allMetrics body :
  renderMetrics written previousTitle allMetrics = Completed body →
  (∀ c, c ∈ written → c ∈ body)
  ∧ (∀ m, m ∈ allMetrics → qualifiedName m ≠ "" →
          MetricEntry (qualifiedName m) (help m) (stabilityOf m) ∈ body).
Proof.
  revert written previousTitle.
  induction allMetrics as [|metric rest IH]; intros written previousTitle; simpl.
  - intros [= <-]. split; [done|]. intros m Hm. by apply elem_of_nil in Hm.
  - destruct (renderGroup previousTitle metric) as [[heading previousTitle']|] eqn:Hg;
      simpl; [|done].
    intros [Hw Hrest]%IH. split.
    + intros c Hc. apply Hw. rewrite elem_of_app. by left.
    + intros m [->|Hm]%elem_of_cons Hq; [|by apply Hrest].
      apply Hw. rewrite !elem_of_app. right; right. by apply renderEntry_chunk.
Qed.

(** The loop panics exactly when the title of some record's subsystem cannot
    be derived. *)
Lemma renderMetrics_panics written previousTitle allMetrics :
  (∃ partial, renderMetrics written previousTitle allMetrics = Panic partial) ↔
  ∃ m, m ∈ allMetrics ∧ subsystem m ≠ "" ∧ subsystemTitle (subsystem m) = None.
Proof.
  revert written previousTitle.
  induction allMetrics as [|metric rest IH]; intros written previousTitle; simpl.
  - split; [intros [? ?]; done|]. intros (m & Hm & _). by apply elem_of_nil in Hm.
  - destruct (renderGroup previousTitle metric) as [[heading previousTitle']|] eqn:Hg; simpl.
    + rewrite IH. split.
      * intros (m & Hm & H). exists m. split; [by right|done].
      * intros (m & [->|Hm]%elem_of_cons & Hs & Ht); [|by eauto].
        assert (renderGroup previousTitle metric = None) by by apply renderGroup_panics.
        congruence.
    + apply renderGroup_panics in Hg. split; [|by eauto].
      intros _. exists metric. split; [left|done].
Qed.

(** A record with an empty qualified name writes nothing. *)
Lemma renderMetrics_skip written previousTitle (m : metricInfo) rest :
  qualifiedName m = "" →
  renderMetrics written previousTitle (m :: rest) = renderMetrics written previousTitle rest.
Proof.
  intros Hq. pose proof Hq as (_ & Hs & _)%qualifiedName_empty. simpl.
  unfold renderGroup, renderEntry.
  rewrite (bool_decide_eq_false_2 (subsystem m ≠ "")) by (intros H; by apply H).
  rewrite (bool_decide_eq_false_2 (qualifiedName m ≠ "")) by (intros H; by apply H).
  simpl. by rewrite app_nil_r.
Qed.

(** ** The run, case by case *)

Lemma sortedMetrics_elem (G : runtime) (scanned : list metricInfo) (m : metricInfo) :
  m ∈ sortedMetrics G scanned ↔ m ∈ normalize scanned.
Proof. unfold sortedMetrics. by rewrite sortSlice_Permutation. Qed.

(** The run leaves a file (complete or partial) exactly when the arguments
    are enough, the scan succeeds and the file can be created; the body is
    that of the loop over the sorted records. *)
Lemma main_body (G : runtime) (w : world) (args : list string) (body : list chunk) :
  main G w args = Written body ∨ main G w args = Panicked body →
  ∃ scanned,
    scanRoots G w (take (length args - 1) args) = Ok scanned
    ∧ body = bodyOf (renderMetrics [] "" (sortedMetrics G scanned)).
Proof.
  unfold main. destruct (length args <? 2)%nat; [intros [|]; done|].
  destruct (scanRoots G w _) as [scanned|d]; [|intros [|]; done].
  destruct (createSucceeds w _); [|intros [|]; done].
  exists scanned. split; [done|].
  destruct (renderMetrics _ _ _); simpl; destruct H; congruence.
Qed.

Lemma main_aborted (G : runtime) (w : world) (args : list string) (d : fatal) :
  scanRoots G w (take (length args - 1) args) = Fatal d →
  ∃ d', main G w args = Aborted d'.
Proof.
  intros Hscan. unfold main. destruct (length args <? 2)%nat; [by eexists|].
  rewrite Hscan. by eexists.
Qed.

(** ** C4: the stability tier *)


(** ** C9: records without a qualified name *)

Lemma scanElement_ignored (G : runtime) keyValuePairs (el : expr) :
  carriesNoField G el → scanElement G keyValuePairs el = Ok keyValuePairs.
Proof.
  intros Hel. destruct el; simpl; try done.
  rewrite bool_decide_eq_false_2; [done|]. by eapply Hel.
Qed.

Lemma scanElements_ignored (G : runtime) keyValuePairs (Elts : list expr) :
  Forall (carriesNoField G) Elts → scanElements G keyValuePairs Elts = Ok keyValuePairs.
Proof.
  induction 1 as [|el Elts Hel _ IH]; simpl; [done|].
  by rewrite scanElement_ignored.
Qed.

(** An accepted call gives one record per composite-literal argument. *)
Lemma scanInitializer_length (G : runtime) Fun Args funcPkg records :
  getFuncPackage G Fun = Ok funcPkg → acceptedQualifier funcPkg = true →
  scanInitializer G (CallExpr Fun Args) = Ok records →
  length records = length (filter (λ arg, isCompositeLit arg = true) Args).
Proof.
  intros Hpkg Hacc. cbn [scanInitializer]. rewrite Hpkg. cbn [bind]. rewrite Hacc.
  intros (rs & Hrs & ->)%appendEach_Ok. simpl.
  induction Hrs as [|arg rx Args rs Harg _ IH]; [done|].
  rewrite filter_cons. simpl. rewrite length_app, IH.
  destruct arg; simpl in Harg; simplify_eq; try done.
  destruct (scanElements G ∅ Elts); simpl in Harg; by simplify_eq.
Qed.

(** C9.  An accepted constructor call gives one record for each of its
    arguments that is a composite literal, and every such argument without
    any of the keys Namespace, Subsystem, Name, Help (a list of label names,
    say) contributes the record whose four fields are empty.  Its qualified
    name is empty, the renderer writes
    nothing for a record with an empty qualified name, and every metric
    block of a written (or partially written) document carries a non-empty
    qualified name. *)
Theorem empty_records_are_scanned_but_not_rendered :
  (∀ G Fun Args funcPkg records,
     getFuncPackage G Fun = Ok funcPkg → acceptedQualifier funcPkg = true →
     scanInitializer G (CallExpr Fun Args) = Ok records →
     length records = length (filter (λ arg, isCompositeLit arg = true) Args)
     ∧ ∀ Elts, CompositeLit Elts ∈ Args → Forall (carriesNoField G) Elts →
               emptyRecord ∈ records)
  ∧ qualifiedName emptyRecord = ""
  ∧ (∀ written previousTitle m rest,
       qualifiedName m = "" →
       renderMetrics written previousTitle (m :: rest)
       = renderMetrics written previousTitle rest)
  ∧ (∀ G w args body qualified helpText level,
       main G w args = Written body ∨ main G w args = Panicked body →
       MetricEntry qualified helpText level ∈ body → qualified ≠ "").
Proof.
  split; [|split; [done|split]].
  - intros G Fun Args funcPkg records Hpkg Hacc Hscan.
    split; [by eapply scanInitializer_length|].
    intros Elts Hin Hel. revert Hscan. cbn [scanInitializer].
    rewrite Hpkg. cbn [bind]. rewrite Hacc. intros Hscan.
    eapply (appendEach_elem_Ok _ _ _ _ (CompositeLit Elts)); [done..| |by left].
    cbn [scanArgument]. by rewrite scanElements_ignored.
  - apply renderMetrics_skip.
  - intros G w args body qualified helpText level Hmain Hin.
    destruct (main_body G w args body Hmain) as (scanned & _ & ->).
    apply renderMetrics_chunk in Hin as [Hin|[[title ?]|(m & _ & Hq & Hc)]].
    + by apply elem_of_nil in Hin.
    + done.
    + by simplify_eq.
Qed.

(** A counter vector: the options literal, then the list of label names. *)
Example label_list_gives_empty_record (G : runtime) :
  scanInitializer G
    (CallExpr (SelectorExpr (Ident "prometheus") "NewCounterVec")
       [CompositeLit [KeyValueExpr (Ident "Name") (BasicLit (quoted "created_total"))];
        CompositeLit [BasicLit (quoted "nodepool"); BasicLit (quoted "zone")]])
  = Ok [ {| namespace := ""; subsystem := ""; name := "created_total"; help := "" |};
         emptyRecord ].
Proof. reflexivity. Qed.

(** ** C10: the title of a subsystem *)

Lemma Split_nonempty (s : string) : Go.Split s ≠ [].
Proof.
  destruct s as [|c s]; simpl; [done|].
  destruct (Ascii.eqb c Go.underscore); [done|]. by destruct (Go.Split s).
Qed.

(** Splitting at a separator splits the two sides. *)
Lemma Split_app (a b : string) :
  Go.Split (a +:+ String Go.underscore b) = Go.Split a ++ Go.Split b.
Proof.
  induction a as [|c a IH]; [done|].
  rewrite string_app_cons. simpl. rewrite IH.
  destruct (Ascii.eqb c Go.underscore); [done|].
  pose proof (Split_nonempty a). by destruct (Go.Split a).
Qed.

Lemma titleWord_panics (s : string) : titleWord s = None ↔ s = "".
Proof.
  unfold titleWord. case_bool_decide as H.
  - split; [done|]. intros ->. by destruct H.
  - by destruct s.
Qed.

Lemma subsystemMap_keys (s val : string) :
  subsystemMap !! s = Some val →
  s ∈ ["node"; "nodes"; "nodeclaim"; "nodeclaims"; "nodepool"; "nodepools"].
Proof.
  intros H. apply elem_of_list_to_map_2 in H.
  repeat (apply elem_of_cons in H as [[= -> _]|H]; [by_compute|]).
  by apply elem_of_nil in H.
Qed.

Lemma subsystemTitle_unaliased (s : string) :
  subsystemMap !! s = None → (subsystemTitle s = None ↔ "" ∈ Go.Split s).
Proof.
  intros Hmap. unfold subsystemTitle. rewrite Hmap.
  destruct (mapM titleWord (Go.Split s)) as [words|] eqn:E; simpl.
  - split; [done|]. intros Hin.
    assert (mapM titleWord (Go.Split s) = None); [|congruence].
    apply mapM_None, Exists_exists. exists "". by rewrite titleWord_panics.
  - split; [|done]. intros _.
    apply mapM_None, Exists_exists in E as (word & Hin & ->%titleWord_panics). done.
Qed.

Lemma subsystemTitle_empty_word (s : string) : "" ∈ Go.Split s → subsystemTitle s = None.
Proof.
  intros Hin. destruct (subsystemMap !! s) as [val|] eqn:Hmap.
  - exfalso. apply subsystemMap_keys in Hmap.
    repeat (apply elem_of_cons in Hmap as [->|Hmap];
            [revert Hin; apply (bool_decide_unpack _); vm_compute; exact I|]).
    by apply elem_of_nil in Hmap.
  - by apply subsystemTitle_unaliased.
Qed.

(** C10.  For a subsystem that is not in the alias table, the title
    derivation panics exactly when one of its underscore-separated words is
    empty; a leading, a trailing or a doubled underscore gives such a word
    (and no alias has one).  The renderer's loop panics exactly when some
    record has a non-empty subsystem with an empty word, and then the run
    ends in that panic, after the output file was created. *)
Theorem title_derivation_is_partial :
  (∀ s, subsystemMap !! s = None → (subsystemTitle s = None ↔ "" ∈ Go.Split s))
  ∧ (∀ s, "" ∈ Go.Split s → subsystemTitle s = None)
  ∧ (∀ a b, "" ∈ Go.Split ("_" +:+ a)
            ∧ "" ∈ Go.Split (a +:+ "_")
            ∧ "" ∈ Go.Split (a +:+ "__" +:+ b))
  ∧ (∀ written previousTitle allMetrics,
       (∃ partial, renderMetrics written previousTitle allMetrics = Panic partial) ↔
       ∃ m, m ∈ allMetrics ∧ subsystem m ≠ "" ∧ "" ∈ Go.Split (subsystem m))
  ∧ (∀ G w args scanned m,
       (2 ≤ length args)%nat →
       scanRoots G w (take (length args - 1) args) = Ok scanned →
       createSucceeds w (default "" (last args)) = true →
       m ∈ normalize scanned → subsystem m ≠ "" → "" ∈ Go.Split (subsystem m) →
       ∃ partial, main G w args = Panicked partial
                  ∧ outputFile (main G w args) = Some (documentText partial)).
Proof.
  split; [exact subsystemTitle_unaliased|].
  split; [exact subsystemTitle_empty_word|].
  assert (Hpanic : ∀ written previousTitle allMetrics,
    (∃ partial, renderMetrics written previousTitle allMetrics = Panic partial) ↔
    ∃ m, m ∈ allMetrics ∧ subsystem m ≠ "" ∧ "" ∈ Go.Split (subsystem m)).
  { intros written previousTitle allMetrics. rewrite renderMetrics_panics.
    split; intros (m & Hm & Hs & Ht); exists m; (split; [done|split; [done|]]).
    - destruct (subsystemMap !! subsystem m) as [val|] eqn:Hmap.
      + unfold subsystemTitle in Ht. by rewrite Hmap in Ht.
      + by apply subsystemTitle_unaliased.
    - by apply subsystemTitle_empty_word. }
  split; [|split; [exact Hpanic|]].
  - intros a b. split; [|split].
    + left.
    + change (a +:+ "_") with (a +:+ String Go.underscore "").
      rewrite Split_app. apply elem_of_app. right. left.
    + change (a +:+ "__" +:+ b) with (a +:+ String Go.underscore (String Go.underscore b)).
      rewrite Split_app. apply elem_of_app. right. left.
  - intros G w args scanned m Hargs Hscan Hcreate Hm Hs Hsplit.
    destruct (proj2 (Hpanic [] "" (sortedMetrics G scanned))) as [partial Hr].
    { exists m. by rewrite sortedMetrics_elem. }
    exists partial. unfold main.
    rewrite (proj2 (Nat.ltb_ge _ _) Hargs), Hscan, Hcreate, Hr. done.
Qed.

(** A subsystem literal with a trailing underscore. *)
Example trailing_underscore_panics :
  let w := {| walkDir := λ _, [Parsed [ {| pkgName := "metrics"; pkgFiles :=
      [[GenDecl VAR [ValueSpec
         [CallExpr (SelectorExpr (Ident "prometheus") "NewCounter")
            [CompositeLit
               [KeyValueExpr (Ident "Subsystem") (BasicLit (quoted "batcher_"));
                KeyValueExpr (Ident "Name") (BasicLit (quoted "size"))]]]]]] |} ]];
              createSucceeds := λ _, true |} in
  ∃ partial, main referenceRuntime w ["pkg"; "metrics.md"] = Panicked partial.
Proof. eexists. vm_compute. reflexivity. Qed.

(** ** C8: the order of the rendered records *)



Lemma priority_named (s : string) : s ≠ "" → priority s ≤ 10.
Proof.
  intros Hs. unfold priority. destruct (subSystemSortOrder !! s) as [p|] eqn:E; simpl; [|lia].
  apply elem_of_list_to_map_2 in E.
  repeat (apply elem_of_cons in E as [[= ? ?]|E]; [subst; try done; lia|]).
  by apply elem_of_nil in E.
Qed.


Example pods_before_workqueue_before_leader_election :
  priority "pods" = 7 ∧ priority "scheduler" = 0 ∧ priority "workqueue" = -1
  ∧ priority "leader_election" = -2.
Proof. by vm_compute. Qed.

(** ** C5: concatenations *)

Lemma trimLeftQuotes_id (s : string) : startsWithQuote s = false → Go.trimLeftQuotes s = s.
Proof. destruct s as [|c s]; simpl; [done|]. by intros ->. Qed.

Lemma trimRightQuotes_id (s : string) : endsWithQuote s = false → Go.trimRightQuotes s = s.
Proof.
  induction s as [|c s IH]; simpl; [done|].
  destruct s as [|c' s]; simpl in *; [by intros ->|].
  intros H. rewrite (IH H). done.
Qed.

Lemma startsWithQuote_trimLeft (s : string) : startsWithQuote (Go.trimLeftQuotes s) = false.
Proof.
  induction s as [|c s IH]; simpl; [done|].
  destruct (Ascii.eqb c Go.quote) eqn:E; [done|]. simpl. by rewrite E.
Qed.

Lemma endsWithQuote_trimRight (s : string) : endsWithQuote (Go.trimRightQuotes s) = false.
Proof.
  induction s as [|c s IH]; simpl; [done|].
  destruct (Go.trimRightQuotes s) as [|c' t] eqn:E.
  - destruct (Ascii.eqb c Go.quote) eqn:Ec; simpl; [done|]. by rewrite Ec.
  - done.
Qed.

Lemma startsWithQuote_trimRight (s : string) :
  startsWithQuote s = false → startsWithQuote (Go.trimRightQuotes s) = false.
Proof.
  destruct s as [|c s]; simpl; [done|]. intros Hc.
  destruct (Go.trimRightQuotes s); simpl; by rewrite Hc.
Qed.

Lemma TrimQuotes_trimmed (s : string) : trimmed (Go.TrimQuotes s).
Proof.
  unfold Go.TrimQuotes. split.
  - apply startsWithQuote_trimRight, startsWithQuote_trimLeft.
  - apply endsWithQuote_trimRight.
Qed.

Lemma TrimQuotes_id (s : string) : trimmed s → Go.TrimQuotes s = s.
Proof.
  intros [Hl Hr]. unfold Go.TrimQuotes. by rewrite trimLeftQuotes_id, trimRightQuotes_id.
Qed.

Lemma endsWithQuote_app (a b : string) :
  endsWithQuote (a +:+ b)
  = match b with EmptyString => endsWithQuote a | _ => endsWithQuote b end.
Proof.
  induction a as [|c a IH].
  - by destruct b.
  - rewrite string_app_cons. simpl. rewrite IH.
    destruct a as [|c' a]; [by destruct b|].
    rewrite string_app_cons. by destruct b.
Qed.

Lemma trimmed_app (a b : string) : trimmed a → trimmed b → trimmed (a +:+ b).
Proof.
  intros [Ha1 Ha2] [Hb1 Hb2]. split.
  - destruct a; [done|]. by rewrite string_app_cons.
  - rewrite endsWithQuote_app. by destruct b.
Qed.

Lemma chainText_trimmed (e : expr) : literalChain e → trimmed (chainText e).
Proof.
  induction 1; simpl; [apply TrimQuotes_trimmed | by apply trimmed_app].
Qed.

Lemma getBinaryExpr_unfold (X Y : expr) :
  getBinaryExpr (BinaryExpr X Y)
  = do x <- binaryOperand X; do y <- binaryOperand Y; Ok (x +:+ y).
Proof. reflexivity. Qed.

Lemma binaryOperand_chain (e : expr) : literalChain e → binaryOperand e = Ok (chainText e).
Proof.
  induction 1 as [v|X Y _ IHX _ IHY]; [done|].
  change (binaryOperand (BinaryExpr X Y)) with (getBinaryExpr (BinaryExpr X Y)).
  by rewrite getBinaryExpr_unfold, IHX, IHY.
Qed.

Lemma resolveField_chain (G : runtime) (e : expr) :
  literalChain e → resolveField G e = Ok (chainText e).
Proof.
  intros He. unfold resolveField. destruct He as [v|X Y HX HY]; [done|].
  change (fieldValue G (BinaryExpr X Y)) with (binaryOperand (BinaryExpr X Y)).
  rewrite binaryOperand_chain by by constructor. simpl.
  rewrite TrimQuotes_id; [done|]. apply trimmed_app; by apply chainText_trimmed.
Qed.

Lemma binaryOperand_Ok_chain (e : expr) (s : string) :
  binaryOperand e = Ok s → literalChain e.
Proof.
  revert s. induction e as [v| | |X IHX Y IHY| | | | | | | |]; intros s; try done.
  - intros _. constructor.
  - change (binaryOperand (BinaryExpr X Y)) with (getBinaryExpr (BinaryExpr X Y)).
    rewrite getBinaryExpr_unfold.
    destruct (binaryOperand X) as [x|] eqn:EX; [|done]. cbn [bind].
    destruct (binaryOperand Y) as [y|] eqn:EY; [|done]. intros _.
    constructor; [by eapply IHX | by eapply IHY].
Qed.

Lemma head_app {A} (a b : list A) :
  head (a ++ b) = match head a with Some x => Some x | None => head b end.
Proof. by destruct a. Qed.

(** What an operand of [getBinaryExpr] gives: the text of the literals when
    every operand below it is a literal, and else the fatal error of the
    leftmost operand that is none. *)
Lemma binaryOperand_operands (e : expr) :
  binaryOperand e = match firstUnsupported e with
                    | None => Ok (chainText e)
                    | Some val => Fatal (UnsupportedValue val)
                    end.
Proof.
  induction e as [v| | |X IHX Y IHY| | | | | | | |]; try reflexivity.
  change (binaryOperand (BinaryExpr X Y)) with (getBinaryExpr (BinaryExpr X Y)).
  rewrite getBinaryExpr_unfold, IHX, IHY.
  unfold firstUnsupported. cbn [operands]. rewrite filter_app, head_app.
  fold (firstUnsupported X). fold (firstUnsupported Y).
  destruct (firstUnsupported X); [done|]. cbn [bind].
  by destruct (firstUnsupported Y).
Qed.

Lemma literalChain_firstUnsupported (e : expr) :
  literalChain e ↔ firstUnsupported e = None.
Proof.
  split.
  - intros He. apply binaryOperand_chain in He. rewrite binaryOperand_operands in He.
    by destruct (firstUnsupported e).
  - intros He. apply (binaryOperand_Ok_chain e (chainText e)).
    by rewrite binaryOperand_operands, He.
Qed.

(** C5 (counterexample).  [Namespace] is mapped in the symbol table and the
    literal resolves, yet their concatenation [Namespace + "_build"] does not
    resolve: an operand of a concatenation may be a literal or a
    concatenation, an identifier is an unsupported value there. *)
Lemma concatenation_with_identifier_is_fatal :
  resolveField referenceRuntime (Ident "Namespace") = Ok "karpenter"
  ∧ resolveField referenceRuntime (BasicLit (quoted "_build")) = Ok "_build"
  ∧ ¬ ∃ G s,
      resolveField G (BinaryExpr (Ident "Namespace") (BasicLit (quoted "_build"))) = Ok s.
Proof.
  split; [reflexivity|]. split; [reflexivity|].
  intros (G & s & H). discriminate H.
Qed.

(** C5 (amended).  A concatenation whose two operands are string literals
    or binary expressions of this kind again, nested without parentheses to
    any depth, resolves without a fatal error to the concatenation of what
    its operands resolve to.  When some operand, at any depth, is no string
    literal (an identifier or a selector, mapped in the symbol table or
    not, a parenthesised expression, or any other node), there is a leftmost
    such operand and resolution is fatal with it as the unsupported value of
    the diagnostic.  One of the two cases always applies. *)
Theorem concatenation_of_literals (G : runtime) (X Y : expr) :
  (literalChain X → literalChain Y →
   ∃ x y, resolveField G X = Ok x ∧ resolveField G Y = Ok y
          ∧ resolveField G (BinaryExpr X Y) = Ok (x +:+ y))
  ∧ (∀ val, firstUnsupported (BinaryExpr X Y) = Some val →
            val ∈ operands (BinaryExpr X Y)
            ∧ isBasicLit val = false
            ∧ resolveField G (BinaryExpr X Y) = Fatal (UnsupportedValue val))
  ∧ (∀ operand, operand ∈ operands (BinaryExpr X Y) → isBasicLit operand = false →
                is_Some (firstUnsupported (BinaryExpr X Y)))
  ∧ (firstUnsupported (BinaryExpr X Y) = None ↔ literalChain X ∧ literalChain Y).
Proof.
  split; [|split; [|split]].
  - intros HX HY. exists (chainText X), (chainText Y).
    rewrite !resolveField_chain by (done || by constructor). done.
  - intros val Hval.
    pose proof Hval as Hhead. unfold firstUnsupported in Hhead.
    apply head_Some_elem_of, list_elem_of_filter in Hhead as [? ?].
    split; [done|]. split; [done|]. unfold resolveField.
    change (fieldValue G (BinaryExpr X Y)) with (binaryOperand (BinaryExpr X Y)).
    by rewrite binaryOperand_operands, Hval.
  - intros operand Hin Hlit.
    destruct (firstUnsupported (BinaryExpr X Y)) as [val|] eqn:Hval; [by eexists|].
    exfalso. unfold firstUnsupported in Hval. apply head_None in Hval.
    assert (Hf : operand ∈ filter (λ operand, isBasicLit operand = false)
                             (operands (BinaryExpr X Y)))
      by by apply list_elem_of_filter.
    rewrite Hval in Hf. by apply elem_of_nil in Hf.
  - rewrite <- literalChain_firstUnsupported. split.
    + intros H. by inversion H.
    + intros [? ?]. by constructor.
Qed.

Lemma concatenation_of_literals_witness :
  (∃ x y,
     resolveField referenceRuntime
       (BinaryExpr (literal "karpenter") (literal "_nodes")) = Ok x
     ∧ resolveField referenceRuntime (literal "_total") = Ok y
     ∧ resolveField referenceRuntime
         (BinaryExpr (BinaryExpr (literal "karpenter") (literal "_nodes")) (literal "_total"))
       = Ok (x +:+ y))
  ∧ (Ident "NodeSubsystem"
     ∈ operands (BinaryExpr (BinaryExpr (literal "karpenter") (Ident "NodeSubsystem"))
                   (Ident "fooKey"))
     ∧ isBasicLit (Ident "NodeSubsystem") = false
     ∧ resolveField referenceRuntime
         (BinaryExpr (BinaryExpr (literal "karpenter") (Ident "NodeSubsystem"))
            (Ident "fooKey")) = Fatal (UnsupportedValue (Ident "NodeSubsystem"))).
Proof.
  split.
  - apply (concatenation_of_literals referenceRuntime
             (BinaryExpr (literal "karpenter") (literal "_nodes")) (literal "_total")).
    + constructor; constructor.
    + constructor.
  - apply (concatenation_of_literals referenceRuntime
             (BinaryExpr (literal "karpenter") (Ident "NodeSubsystem")) (Ident "fooKey")).
    reflexivity.
Defined.

(** ["a" + "b" + "c"] nests its first two operands to the left and
    resolves.  With an identifier as an operand, mapped or not, or with
    parentheses around the last two literals, the concatenation is fatal. *)
Example operands_other_than_literals_are_fatal (G : runtime) :
  resolveField G (BinaryExpr (BinaryExpr (literal "a") (literal "b")) (literal "c")) = Ok "abc"
  ∧ resolveField G (BinaryExpr (BinaryExpr (literal "a") (Ident "Namespace")) (Ident "fooKey"))
    = Fatal (UnsupportedValue (Ident "Namespace"))
  ∧ resolveField G (BinaryExpr (literal "a") (ParenExpr (BinaryExpr (literal "b") (literal "c"))))
    = Fatal (UnsupportedValue (ParenExpr (BinaryExpr (literal "b") (literal "c")))).
Proof. split; [|split]; reflexivity. Qed.

(** ** When the sort has no choice *)




Lemma renderMetrics_titled written previousTitle allMetrics :
  titled allMetrics → ∃ body, renderMetrics written previousTitle allMetrics = Completed body.
Proof.
  intros Ht. destruct (renderMetrics written previousTitle allMetrics) as [body|partial] eqn:E;
    [by eexists|].
  assert (∃ partial, renderMetrics written previousTitle allMetrics = Panic partial) as Hp
    by by eexists.
  apply renderMetrics_panics in Hp as (m & Hm & Hs & Hnone).
  unfold titled in Ht. rewrite Forall_forall in Ht.
  destruct (Ht m Hm) as [?|[t Hsome]]; congruence.
Qed.

(** A run whose scan succeeds on records that all have a title writes the
    document, with a block for every normalized record that has a qualified
    name. *)
Lemma main_written (G : runtime) (w : world) (args : list string) scanned :
  (2 ≤ length args)%nat →
  scanRoots G w (take (length args - 1) args) = Ok scanned →
  createSucceeds w (default "" (last args)) = true →
  titled (normalize scanned) →
  ∃ body, main G w args = Written body
          ∧ body = bodyOf (renderMetrics [] "" (sortedMetrics G scanned))
          ∧ ∀ m, m ∈ normalize scanned → qualifiedName m ≠ "" →
                 MetricEntry (qualifiedName m) (help m) (stabilityOf m) ∈ body.
Proof.
  intros Hargs Hscan Hcreate Ht.
  destruct (renderMetrics_titled [] "" (sortedMetrics G scanned)) as [body Hr].
  { unfold titled in *. rewrite Forall_forall in *. intros m Hm. apply Ht.
    by apply sortedMetrics_elem in Hm. }
  exists body. unfold main.
  rewrite (proj2 (Nat.ltb_ge _ _) Hargs), Hscan, Hcreate, Hr. split; [done|]. split; [done|].
  intros m Hm Hq. apply renderMetrics_complete in Hr as [_ Hr]. apply Hr; [|done].
  by apply sortedMetrics_elem.
Qed.

(** ** The dedupe *)

Lemma addKindMetrics_app (allMetrics : list metricInfo) (kind : string) :
  addKindMetrics allMetrics kind = allMetrics ++ addKindMetrics [] kind.
Proof.
  unfold addKindMetrics. case_bool_decide; simpl; by rewrite <- ?app_assoc.
Qed.

(** The synthesizer appends a fixed catalogue. *)
Lemma addPatternBasedMetrics_app (allMetrics : list metricInfo) :
  addPatternBasedMetrics allMetrics = allMetrics ++ addPatternBasedMetrics [].
Proof.
  unfold addPatternBasedMetrics.
  assert (H : ∀ kinds l, fold_left addKindMetrics kinds l
                         = l ++ fold_left addKindMetrics kinds []).
  { induction kinds as [|k kinds IH]; intros l; simpl; [by rewrite app_nil_r|].
    rewrite (IH (addKindMetrics l k)), (IH (addKindMetrics [] k)), (addKindMetrics_app l).
    by rewrite app_assoc. }
  rewrite (H crdKinds allMetrics). by rewrite <- !app_assoc.
Qed.

(** An element whose key was seen, or is the key of an earlier element, is
    dropped. *)
Lemma uniqByFrom_later {A} (iteratee : A → string) seen (l1 l2 : list A) (x : A) :
  iteratee x ∈ seen ∨ iteratee x ∈ iteratee <$> l1 →
  Go.uniqByFrom iteratee seen (l1 ++ x :: l2) = Go.uniqByFrom iteratee seen (l1 ++ l2).
Proof.
  revert seen. induction l1 as [|y l1 IH]; intros seen Hx; simpl.
  - destruct Hx as [Hx|Hx]; [|by apply elem_of_nil in Hx]. by rewrite decide_True.
  - destruct (decide (iteratee y ∈ seen)).
    + apply IH. destruct Hx as [Hx|Hx]; [by left|].
      apply elem_of_cons in Hx as [->|Hx]; [by left|by right].
    + f_equal. apply IH. destruct Hx as [Hx|Hx].
      { left. apply elem_of_union. by right. }
      apply elem_of_cons in Hx as [->|Hx]; [|by right].
      left. apply elem_of_union. left. by apply elem_of_singleton.
Qed.

(** What the dedupe keeps has pairwise different keys, and is part of its
    input. *)
Lemma uniqByFrom_NoDup {A} (iteratee : A → string) seen (l : list A) :
  NoDup (iteratee <$> Go.uniqByFrom iteratee seen l)
  ∧ ∀ x, x ∈ Go.uniqByFrom iteratee seen l → x ∈ l ∧ iteratee x ∉ seen.
Proof.
  revert seen. induction l as [|y l IH]; intros seen; simpl.
  - split; [constructor|]. intros x Hx. by apply elem_of_nil in Hx.
  - destruct (decide (iteratee y ∈ seen)) as [Hy|Hy].
    + destruct (IH seen) as [Hnd Hin]. split; [done|].
      intros x Hx. destruct (Hin x Hx). split; [by right|done].
    + destruct (IH ({[iteratee y]} ∪ seen)) as [Hnd Hin]. split.
      * simpl. constructor; [|done]. intros (x & Hk & Hx)%list_elem_of_fmap.
        destruct (Hin x Hx) as [_ Hnot]. apply Hnot. rewrite <- Hk.
        apply elem_of_union. left. by apply elem_of_singleton.
      * intros x [->|Hx]%elem_of_cons; [split; [left|done]|].
        destruct (Hin x Hx) as [? Hnot]. split; [by right|].
        intros ?. apply Hnot, elem_of_union. by right.
Qed.

Lemma dedupe_NoDup (allMetrics : list metricInfo) : NoDup (dedupeKey <$> dedupe allMetrics).
Proof. apply uniqByFrom_NoDup. Qed.

Lemma filter_all {A} (P : A → Prop) `{∀ x, Decision (P x)} (l : list A) :
  (∀ x, x ∈ l → P x) → filter P l = l.
Proof.
  induction l as [|y l IH]; intros H0; [done|].
  rewrite filter_cons_True by (apply H0; left). f_equal. apply IH. intros x Hx. apply H0. by right.
Qed.

Lemma uniqByFrom_first {A} (iteratee : A → string) seen (l : list A) (x : A) :
  x ∈ Go.uniqByFrom iteratee seen l ↔
  ∃ l1 l2, l = l1 ++ x :: l2 ∧ (iteratee x ∉ seen) ∧ (iteratee x ∉ iteratee <$> l1).
Proof.
  revert seen. induction l as [|y l IH]; intros seen; cbn [Go.uniqByFrom].
  - split; [intros H; by apply elem_of_nil in H|]. intros (l1 & l2 & H & _). by destruct l1.
  - destruct (decide (iteratee y ∈ seen)) as [Hy|Hy].
    + rewrite IH. split.
      * intros (l1 & l2 & -> & Hs & Hl). exists (y :: l1), l2. split; [done|]. split; [done|].
        rewrite fmap_cons, not_elem_of_cons. split; [|done]. intros E. by rewrite E in Hs.
      * intros (l1 & l2 & E & Hs & Hl). destruct l1 as [|z l1].
        -- injection E as -> ->. done.
        -- injection E as -> ->. exists l1, l2. split; [done|]. split; [done|].
           rewrite fmap_cons, not_elem_of_cons in Hl. by destruct Hl.
    + rewrite elem_of_cons, IH. split.
      * intros [->|(l1 & l2 & -> & Hs & Hl)].
        -- exists [], l. split; [done|]. split; [done|]. apply not_elem_of_nil.
        -- rewrite not_elem_of_union, not_elem_of_singleton in Hs. destruct Hs as [Hne Hs].
           exists (y :: l1), l2. split; [done|]. split; [done|].
           rewrite fmap_cons, not_elem_of_cons. done.
      * intros (l1 & l2 & E & Hs & Hl). destruct l1 as [|z l1].
        -- injection E as -> ->. by left.
        -- injection E as -> ->. right. exists l1, l2. split; [done|].
           rewrite fmap_cons, not_elem_of_cons in Hl. destruct Hl as [Hne Hl].
           split; [|done]. rewrite not_elem_of_union, not_elem_of_singleton. done.
Qed.

(** The result depends on the set of seen keys only through the keys of the
    list. *)
Lemma uniqByFrom_ext {A} (iteratee : A → string) seen seen' (l : list A) :
  (∀ x, x ∈ l → iteratee x ∈ seen ↔ iteratee x ∈ seen') →
  Go.uniqByFrom iteratee seen l = Go.uniqByFrom iteratee seen' l.
Proof.
  revert seen seen'. induction l as [|y l IH]; intros seen seen' H; [done|].
  cbn [Go.uniqByFrom].
  assert (Hy : iteratee y ∈ seen ↔ iteratee y ∈ seen') by (apply H; left).
  assert (Hl : Go.uniqByFrom iteratee seen l = Go.uniqByFrom iteratee seen' l).
  { apply IH. intros x Hx. apply H. by right. }
  assert (Hl' : Go.uniqByFrom iteratee ({[iteratee y]} ∪ seen) l
                = Go.uniqByFrom iteratee ({[iteratee y]} ∪ seen') l).
  { apply IH. intros x Hx. rewrite !elem_of_union.
    assert (iteratee x ∈ seen ↔ iteratee x ∈ seen') by (apply H; by right). tauto. }
  destruct (decide (iteratee y ∈ seen)), (decide (iteratee y ∈ seen')); try tauto.
  by rewrite Hl'.
Qed.

Lemma uniqByFrom_app {A} (iteratee : A → string) seen (l1 l2 : list A) :
  Go.uniqByFrom iteratee seen (l1 ++ l2)
  = Go.uniqByFrom iteratee seen l1
    ++ Go.uniqByFrom iteratee (list_to_set (iteratee <$> l1) ∪ seen) l2.
Proof.
  revert seen. induction l1 as [|y l1 IH]; intros seen.
  - cbn [app Go.uniqByFrom]. apply uniqByFrom_ext. intros x _.
    rewrite elem_of_union, fmap_nil, elem_of_list_to_set, elem_of_nil. tauto.
  - cbn [app Go.uniqByFrom]. destruct (decide (iteratee y ∈ seen)) as [Hy|Hy].
    + rewrite IH. f_equal. apply uniqByFrom_ext. intros x _.
      rewrite !elem_of_union, !elem_of_list_to_set, fmap_cons, elem_of_cons.
      split; [tauto|]. intros [[->|?]|?]; tauto.
    + rewrite IH. cbn [app]. f_equal. f_equal. apply uniqByFrom_ext. intros x _.
      rewrite !elem_of_union, !elem_of_list_to_set, fmap_cons, elem_of_cons, elem_of_singleton.
      tauto.
Qed.

Lemma uniqByFrom_filter {A} (iteratee : A → string) seen (l : list A) :
  NoDup (iteratee <$> l) →
  Go.uniqByFrom iteratee seen l = filter (λ x, iteratee x ∉ seen) l.
Proof.
  revert seen. induction l as [|y l IH]; intros seen Hnd; [done|].
  rewrite fmap_cons, NoDup_cons in Hnd. destruct Hnd as [Hy Hnd].
  cbn [Go.uniqByFrom]. destruct (decide (iteratee y ∈ seen)) as [Hs|Hs].
  - rewrite filter_cons_False by tauto. by apply IH.
  - rewrite filter_cons_True by done. f_equal. rewrite <- (IH seen Hnd).
    apply uniqByFrom_ext. intros x Hx. rewrite elem_of_union, elem_of_singleton.
    split; [|tauto]. intros [E|?]; [|done]. exfalso. apply Hy. rewrite <- E.
    apply list_elem_of_fmap. by exists x.
Qed.

(** The dedupe of the scanned records followed by the catalogue: the
    scanned records deduplicated among themselves, then the catalogue
    records whose key was not scanned. *)
Lemma dedupe_catalogue (scanned : list metricInfo) :
  dedupe (addPatternBasedMetrics scanned)
  = dedupe scanned
    ++ filter (λ c, dedupeKey c ∉ (dedupeKey <$> scanned)) (addPatternBasedMetrics []).
Proof.
  rewrite addPatternBasedMetrics_app. unfold dedupe, Go.UniqBy.
  rewrite uniqByFrom_app. f_equal.
  rewrite uniqByFrom_filter by by_compute.
  apply list_filter_iff. intros c.
  rewrite elem_of_union, elem_of_list_to_set, elem_of_empty. tauto.
Qed.

Lemma rejectEach_filter {A} (test : A → string → bool) (prefixes : list string) (l : list A) :
  fold_left (λ l prefix, Go.Reject l (λ m, test m prefix)) prefixes l
  = filter (λ m, Forall (λ prefix, test m prefix = false) prefixes) l.
Proof.
  revert l. induction prefixes as [|p ps IH]; intros l; cbn [fold_left].
  - symmetry. apply filter_all. intros x _. constructor.
  - rewrite IH. unfold Go.Reject. rewrite list_filter_filter. apply list_filter_iff.
    intros x. rewrite Forall_cons. tauto.
Qed.

Lemma dropMetrics_filter (allMetrics : list metricInfo) :
  dropMetrics allMetrics
  = filter (λ m, Forall (λ prefix, Go.HasPrefix (name m) prefix = false) droppedPrefixes)
      allMetrics.
Proof. apply (rejectEach_filter (λ m prefix, Go.HasPrefix (name m) prefix)). Qed.

Lemma help_foldRecord (m : metricInfo) : help (foldRecord m) = help m.
Proof.
  unfold foldRecord. generalize foldedSubsystems as prefixes. intros prefixes. revert m.
  induction prefixes as [|p ps IH]; intros m; [done|].
  rewrite foldRecordFrom_cons, IH. unfold foldPrefix.
  by destruct (bool_decide (subsystem m = "") && Go.HasPrefix (name m) (p +:+ "_")).
Qed.

(** The first record with its key, among the scanned records followed by
    the catalogue, is rendered with its own help text, unless the drop
    removes it or it has no qualified name. *)
Lemma first_of_key_rendered (G : runtime) (scanned l1 l2 : list metricInfo) (m : metricInfo)
  (body : list chunk) :
  addPatternBasedMetrics scanned = l1 ++ m :: l2 →
  dedupeKey m ∉ (dedupeKey <$> l1) →
  Forall (λ prefix, Go.HasPrefix (name m) prefix = false) droppedPrefixes →
  qualifiedName (foldRecord m) ≠ "" →
  renderMetrics [] "" (sortedMetrics G scanned) = Completed body →
  MetricEntry (qualifiedName (foldRecord m)) (help m) (stabilityOf (foldRecord m)) ∈ body.
Proof.
  intros Hl Hkey Hkeep Hq Hr.
  assert (Hd : m ∈ dedupe (addPatternBasedMetrics scanned)).
  { unfold dedupe, Go.UniqBy. apply uniqByFrom_first. exists l1, l2.
    split; [done|]. split; [apply not_elem_of_empty|done]. }
  assert (Hn : foldRecord m ∈ sortedMetrics G scanned).
  { apply sortedMetrics_elem. unfold normalize. rewrite foldPrefixes_map, dropMetrics_filter.
    apply list_elem_of_fmap. exists m. split; [done|]. by apply list_elem_of_filter. }
  destruct (renderMetrics_complete _ _ _ _ Hr) as [_ Hent].
  rewrite <- (help_foldRecord m). by apply Hent.
Qed.

(** ** C2: identities after normalization *)

(** C2 (the code at the failing input).  One declaration with subsystem
    [client_go] and name [request_total].  The synthesized record named
    [client_go_request_total] has another dedupe key, so both pass the
    dedupe; the prefix folding, which comes later, then gives the second the
    identity of the first.  Whatever the sort does, two records with one
    identity are rendered, as two blocks for [client_go_request_total]. *)
Theorem folding_after_dedupe_duplicates (G : runtime) :
  let w := sourceTree [[declaring [("Subsystem", literal "client_go");
                                   ("Name", literal "request_total");
                                   ("Help", literal "Requests sent.")]]] in
  ¬ NoDup (identity <$> sortedMetrics G
             [ {| namespace := ""; subsystem := "client_go"; name := "request_total";
                  help := "Requests sent." |}; emptyRecord ])
  ∧ ∃ body,
      main G w ["pkg"; "metrics.md"] = Written body
      ∧ MetricEntry "client_go_request_total" "Requests sent." STABLE ∈ body
      ∧ MetricEntry "client_go_request_total"
          "Number of HTTP requests, partitioned by status code and method." STABLE ∈ body.
Proof.
  intros w. split.
  - unfold sortedMetrics. rewrite sortSlice_Permutation. by_compute.
  - destruct (main_written G w ["pkg"; "metrics.md"]
       [ {| namespace := ""; subsystem := "client_go"; name := "request_total";
            help := "Requests sent." |}; emptyRecord ]) as (body & Hmain & _ & Hin).
    + simpl. lia.
    + reflexivity.
    + reflexivity.
    + by_compute.
    + exists body. split; [done|]. split.
      * apply (Hin {| namespace := ""; subsystem := "client_go"; name := "request_total";
                      help := "Requests sent." |}); [by_compute|done].
      * apply (Hin {| namespace := ""; subsystem := "client_go"; name := "request_total";
                      help := "Number of HTTP requests, partitioned by status code and method." |});
          [by_compute|done].
Qed.

(** ** C3: which help text is kept *)

(** C3 (counterexample).  Two declarations with the qualified name
    [karpenter_nodes_created_total] and different help texts: one gives
    namespace, subsystem and name, the other puts the whole name in [Name].
    Their dedupe keys differ, so both are kept and both help texts are
    rendered. *)
Lemma same_qualified_name_rendered_twice :
  let first := {| namespace := "karpenter"; subsystem := "nodes"; name := "created_total";
                  help := "Number of nodes created." |} in
  let second := {| namespace := ""; subsystem := ""; name := "karpenter_nodes_created_total";
                   help := "Nodes created in total." |} in
  let w := sourceTree [[declaring [("Namespace", literal "karpenter");
                                   ("Subsystem", literal "nodes");
                                   ("Name", literal "created_total");
                                   ("Help", literal "Number of nodes created.")];
                        declaring [("Name", literal "karpenter_nodes_created_total");
                                   ("Help", literal "Nodes created in total.")]]] in
  qualifiedName first = qualifiedName second
  ∧ help first ≠ help second
  ∧ everyRun w ["pkg"; "metrics.md"] (λ body,
      MetricEntry "karpenter_nodes_created_total" "Number of nodes created." STABLE ∈ body
      ∧ MetricEntry "karpenter_nodes_created_total" "Nodes created in total." STABLE ∈ body).
Proof.
  intros first second w. split; [reflexivity|]. split; [done|]. intros G.
  destruct (main_written G w ["pkg"; "metrics.md"] [first; emptyRecord; second; emptyRecord])
    as (body & Hmain & _ & Hin).
  - simpl. lia.
  - reflexivity.
  - reflexivity.
  - by_compute.
  - exists body. split; [done|]. split.
    + apply (Hin first); [by_compute|done].
    + apply (Hin second); [by_compute|done].
Qed.

Lemma dedupe_later (first later : metricInfo) (l1 l2 l3 : list metricInfo) :
  dedupeKey first = dedupeKey later →
  dedupe (l1 ++ first :: l2 ++ later :: l3) = dedupe (l1 ++ first :: l2 ++ l3).
Proof.
  intros Hkey. unfold dedupe, Go.UniqBy.
  replace (l1 ++ first :: l2 ++ later :: l3) with ((l1 ++ first :: l2) ++ later :: l3)
    by (by rewrite <- app_assoc).
  replace (l1 ++ first :: l2 ++ l3) with ((l1 ++ first :: l2) ++ l3)
    by (by rewrite <- app_assoc).
  apply uniqByFrom_later. right.
  rewrite fmap_app, elem_of_app. right. rewrite <- Hkey. left.
Qed.

(** C3 (amended).  Which help text is rendered goes by the key of the
    dedupe, not by the qualified name.  When two scanned records have the
    same namespace, the same subsystem and the same name (help text aside),
    the later one is discarded by the dedupe: the records that are rendered,
    and so the document, are those of the input without the later record.
    And every scanned record that has no record of the same key before it
    is rendered with its own help text, unless the drop removes it or its
    qualified name is empty: two records that share only the qualified name
    do not displace one another. *)
Theorem first_declaration_wins (G : runtime) :
  (∀ (first later : metricInfo) (l1 l2 l3 : list metricInfo),
     namespace first = namespace later →
     subsystem first = subsystem later →
     name first = name later →
     normalize (l1 ++ first :: l2 ++ later :: l3) = normalize (l1 ++ first :: l2 ++ l3)
     ∧ renderMetrics [] "" (sortedMetrics G (l1 ++ first :: l2 ++ later :: l3))
       = renderMetrics [] "" (sortedMetrics G (l1 ++ first :: l2 ++ l3)))
  ∧ (∀ (before after : list metricInfo) (m : metricInfo) (body : list chunk),
       dedupeKey m ∉ (dedupeKey <$> before) →
       Forall (λ prefix, Go.HasPrefix (name m) prefix = false) droppedPrefixes →
       qualifiedName (foldRecord m) ≠ "" →
       renderMetrics [] "" (sortedMetrics G (before ++ m :: after)) = Completed body →
       MetricEntry (qualifiedName (foldRecord m)) (help m) (stabilityOf (foldRecord m))
       ∈ body).
Proof.
  split.
  - intros first later l1 l2 l3 Hns Hss Hname.
    assert (Hn : normalize (l1 ++ first :: l2 ++ later :: l3)
                 = normalize (l1 ++ first :: l2 ++ l3)).
    { unfold normalize.
      rewrite (addPatternBasedMetrics_app (l1 ++ first :: l2 ++ later :: l3)).
      rewrite (addPatternBasedMetrics_app (l1 ++ first :: l2 ++ l3)).
      rewrite <- !app_assoc. simpl. rewrite <- !app_assoc. simpl.
      rewrite (dedupe_later first later); [done|].
      unfold dedupeKey. by rewrite Hns, Hss, Hname. }
    split; [done|]. unfold sortedMetrics. by rewrite Hn.
  - intros before after m body Hkey Hkeep Hq Hr.
    apply (first_of_key_rendered G (before ++ m :: after) before
             (after ++ addPatternBasedMetrics []) m body); try done.
    by rewrite addPatternBasedMetrics_app, <- app_assoc.
Qed.

Lemma first_declaration_wins_witness :
  let first := {| namespace := "karpenter"; subsystem := "nodes"; name := "created_total";
                  help := "Number of nodes created." |} in
  let later := {| namespace := "karpenter"; subsystem := "nodes"; name := "created_total";
                  help := "Nodes created in total." |} in
  let whole := {| namespace := ""; subsystem := ""; name := "karpenter_nodes_created_total";
                  help := "All nodes created." |} in
  (normalize ([] ++ first :: [emptyRecord] ++ later :: [emptyRecord])
   = normalize ([] ++ first :: [emptyRecord] ++ [emptyRecord])
   ∧ renderMetrics [] "" (sortedMetrics referenceRuntime
                            ([] ++ first :: [emptyRecord] ++ later :: [emptyRecord]))
     = renderMetrics [] "" (sortedMetrics referenceRuntime
                              ([] ++ first :: [emptyRecord] ++ [emptyRecord])))
  ∧ MetricEntry (qualifiedName (foldRecord whole)) (help whole) (stabilityOf (foldRecord whole))
    ∈ bodyOf (renderMetrics [] "" (sortedMetrics referenceRuntime ([first] ++ whole :: [later]))).
Proof.
  intros first later whole.
  destruct (first_declaration_wins referenceRuntime) as [Hfirst Hown]. split.
  - apply (Hfirst first later [] [emptyRecord] [emptyRecord]); reflexivity.
  - apply (Hown [first] [later] whole); [by_compute|by_compute|by_compute|].
    vm_compute. reflexivity.
Defined.

(** ** C6: unresolved symbols *)

Lemma binaryOperand_reference (G : runtime) (val : expr) (ident : string) :
  references G val ident → ∃ d, binaryOperand val = Fatal d.
Proof.
  induction val as [| | | X IHX Y IHY | | | | | | | |]; intros Href; cbn [references] in Href;
    try done; try (eexists; reflexivity).
  change (binaryOperand (BinaryExpr X Y)) with (getBinaryExpr (BinaryExpr X Y)).
  rewrite getBinaryExpr_unfold.
  destruct (binaryOperand X) as [x|dx] eqn:EX; cbn [bind]; [|eexists; reflexivity].
  destruct Href as [Href|Href].
  - destruct (IHX Href). congruence.
  - destruct (IHY Href) as [dy ->]. eexists. reflexivity.
Qed.

(** A field value that refers to an unmapped identifier does not resolve;
    when it is itself the symbol, the diagnostic names it. *)
Lemma resolveField_unresolved (G : runtime) (val : expr) (ident : string) :
  references G val ident → identMapping !! ident = None →
  ∃ d, resolveField G val = Fatal d ∧ (isSymbol val → diagnosticNames G d ident).
Proof.
  intros Href Hmap. unfold resolveField.
  destruct val; cbn [references] in Href; try (exfalso; exact Href).
  - subst. unfold fieldValue, getIdentMapping. rewrite Hmap.
    exists (NoIdentifierMapping ident). split; [reflexivity|]. intros _. reflexivity.
  - unfold fieldValue, getIdentMapping. rewrite Href, Hmap.
    exists (UnsupportedSelector ident). split; [reflexivity|]. intros _. reflexivity.
  - destruct (binaryOperand_reference G (BinaryExpr val1 val2) ident Href) as [d Hd].
    change (fieldValue G (BinaryExpr val1 val2)) with (binaryOperand (BinaryExpr val1 val2)).
    rewrite Hd. exists d. split; [reflexivity|]. intros [].
Qed.

(** Whether an element is fatal does not depend on the fields found so far. *)
Lemma scanElement_Fatal (G : runtime) m m' (el : expr) (d : fatal) :
  scanElement G m el = Fatal d → scanElement G m' el = Fatal d.
Proof.
  destruct el; cbn [scanElement]; try done.
  case_bool_decide; [|done]. by destruct (resolveField G el2).
Qed.

Lemma scanElement_Ok (G : runtime) m m' (el : expr) r :
  scanElement G m el = Ok r → ∃ r', scanElement G m' el = Ok r'.
Proof.
  destruct el; cbn [scanElement]; try (eexists; reflexivity).
  case_bool_decide; [|eexists; reflexivity].
  destruct (resolveField G el2); [eexists; reflexivity|done].
Qed.

Lemma anywhere_carries : carries anywhere (λ _ _, True).
Proof.
  split.
  - intros A B f acc l x d Hin Hx.
    destruct (appendEach_elem_Fatal f acc l x d Hin Hx) as [d' Hd']. by exists d'.
  - intros G m Elts el d Hin Hel. revert m.
    induction Hin as [el Elts|el el' Elts Hin IH]; intros m; cbn [scanElements].
    + rewrite (scanElement_Fatal G ∅ m el d Hel). by exists d.
    + destruct (scanElement G m el') as [m'|d']; cbn [bind]; [by apply IH|by exists d'].
Qed.

Lemma firstFatal_carries : carries firstFatal eq.
Proof.
  split.
  - intros A B f acc l x d (l1 & l2 & -> & Hl1) Hx. exists d. split; [|done].
    apply appendEach_Fatal. by exists l1, x, l2.
  - intros G m Elts el d (l1 & l2 & -> & Hl1) Hel. exists d. split; [|done].
    revert m. induction Hl1 as [|y l1 [r Hy] _ IH]; intros m; cbn [scanElements app].
    + by rewrite (scanElement_Fatal G ∅ m el d Hel).
    + destruct (scanElement_Ok G ∅ m y r Hy) as [r' ->]. cbn [bind]. apply IH.
Qed.

(** A field that does not resolve makes the scan of the roots fatal. *)
Lemma fieldAt_Fatal (pos : position) (rel : relation fatal) G w roots val d :
  carries pos rel → Reflexive rel → Transitive rel →
  fieldAt pos G w roots val → resolveField G val = Fatal d →
  ∃ d', scanRoots G w roots = Fatal d' ∧ rel d d'.
Proof.
  intros [Hloop Helts] Hrefl Htrans
    (root & packages & pkg & f & Specs & Values & Fun & Args & funcPkg & Elts & Key
     & Hroot & Hpkgs & Hpkg & Hfile & Hdecl & Hspec & Hinit & Hfun & Hacc & Harg & Hel & Hkey)
    Hval.
  assert (scanElement G ∅ (KeyValueExpr Key val) = Fatal d) as H0.
  { cbn [scanElement]. by rewrite bool_decide_eq_true_2, Hval. }
  destruct (Helts G ∅ _ _ _ Hel H0) as (d1 & H1 & R1).
  assert (scanArgument G (CompositeLit Elts) = Fatal d1) as H1'
    by (cbn [scanArgument]; by rewrite H1).
  destruct (Hloop _ _ _ [] _ _ _ Harg H1') as (d2 & H2 & R2).
  assert (scanInitializer G (CallExpr Fun Args) = Fatal d2) as H2'
    by (cbn [scanInitializer]; rewrite Hfun; cbn [bind]; by rewrite Hacc).
  destruct (Hloop _ _ _ [] _ _ _ Hinit H2') as (d3 & H3 & R3).
  destruct (Hloop _ _ (scanSpec G) [] _ _ _ Hspec H3) as (d4 & H4 & R4).
  destruct (Hloop _ _ (scanDecl G) [] _ _ _ Hdecl H4) as (d5 & H5 & R5).
  destruct (Hloop _ _ (scanFile G) [] _ _ _ Hfile H5) as (d6 & H6 & R6).
  destruct (Hloop _ _ (scanPackage G) [] _ _ _ Hpkg H6) as (d7 & H7 & R7).
  assert (scanRoot G w root = Fatal d7) as H7'.
  { unfold scanRoot. rewrite Hpkgs. exact H7. }
  destruct (Hloop _ _ (scanRoot G w) [] _ _ _ Hroot H7') as (d8 & H8 & R8).
  exists d8. split; [done|].
  repeat (etrans; [eassumption|]). apply Hrefl.
Qed.

(** C6 (counterexample).  Only the first fatal condition is reported.  Of
    two unmapped identifiers in one literal the scan reaches the first,
    [fooSubsystem], and ends there; [barKey], the value of a scanned field
    and absent from the symbol table, is never resolved and no run names
    it. *)
Lemma only_the_first_unresolved_symbol_is_reported :
  let w := sourceTree [[declaring [("Subsystem", Ident "fooSubsystem");
                                   ("Name", Ident "barKey")]]] in
  identMapping !! "barKey" = None
  ∧ fieldAt anywhere referenceRuntime w ["pkg"] (Ident "barKey")
  ∧ ¬ fieldAt firstFatal referenceRuntime w ["pkg"] (Ident "barKey")
  ∧ ¬ ∃ G d, main G w ["pkg"; "metrics.md"] = Aborted d ∧ diagnosticNames G d "barKey".
Proof.
  intros w. split; [reflexivity|]. split; [|split].
  - exists "pkg", [ {| pkgName := "metrics"; pkgFiles :=
        [[declaring [("Subsystem", Ident "fooSubsystem"); ("Name", Ident "barKey")]]] |} ],
      {| pkgName := "metrics"; pkgFiles :=
        [[declaring [("Subsystem", Ident "fooSubsystem"); ("Name", Ident "barKey")]]] |},
      [declaring [("Subsystem", Ident "fooSubsystem"); ("Name", Ident "barKey")]].
    eexists _, _, _, _, "prometheus", _, (Ident "Name").
    unfold anywhere.
    repeat (split; [first [reflexivity | by_compute | left | right; left]|]).
    by_compute.
  - intros Hat.
    destruct (fieldAt_Fatal firstFatal eq referenceRuntime w ["pkg"] (Ident "barKey")
                (NoIdentifierMapping "barKey")) as (d & Hscan & <-);
      [exact firstFatal_carries|apply _|apply _|done|reflexivity|].
    discriminate Hscan.
  - intros (G & d & Hmain & Hnames).
    change (main G w ["pkg"; "metrics.md"]) with (@Aborted (NoIdentifierMapping "fooSubsystem"))
      in Hmain.
    injection Hmain as <-. discriminate Hnames.
Qed.

(** C6 (amended).  A field value that refers to an identifier absent from
    the symbol table, anywhere in the scanned sources and also as an operand
    of a concatenation, ends the run in a fatal error with no output file:
    the file is created only after the scan, the synthesis and the
    normalization.  When the scan reaches the field value (every element
    before it, in every loop on the way, returns), the run ends with the
    diagnostic of that field value, and this diagnostic names the identifier
    when the field value is itself the identifier or the selector. *)
Theorem unresolved_symbol_aborts (G : runtime) (w : world) (args : list string)
  (val : expr) (ident : string) :
  references G val ident →
  identMapping !! ident = None →
  (fieldAt firstFatal G w (take (length args - 1) args) val →
     (2 ≤ length args)%nat →
     ∃ d, resolveField G val = Fatal d
          ∧ main G w args = Aborted d
          ∧ (isSymbol val → diagnosticNames G d ident)
          ∧ outputFile (main G w args) = None)
  ∧ (fieldAt anywhere G w (take (length args - 1) args) val →
     ∃ d, main G w args = Aborted d ∧ outputFile (main G w args) = None).
Proof.
  intros Href Hmap.
  destruct (resolveField_unresolved G val ident Href Hmap) as (d & Hd & Hnames).
  split.
  - intros Hat Hargs.
    destruct (fieldAt_Fatal firstFatal eq G w (take (length args - 1) args) val d)
      as (d' & Hscan & <-);
      [exact firstFatal_carries|apply _|apply _|done|done|].
    assert (main G w args = Aborted d) as Hmain.
    { unfold main. by rewrite (proj2 (Nat.ltb_ge _ _) Hargs), Hscan. }
    exists d. rewrite Hmain. auto.
  - intros Hat.
    destruct (fieldAt_Fatal anywhere (λ _ _, True) G w (take (length args - 1) args) val d)
      as (d' & Hscan & _);
      [exact anywhere_carries|done|done|done|done|].
    destruct (main_aborted G w args d' Hscan) as [d'' Hmain].
    exists d''. by rewrite Hmain.
Qed.

Lemma unresolved_symbol_aborts_witness :
  let w := sourceTree [[declaring [("Subsystem", Ident "fooSubsystem");
                                   ("Name", Ident "barKey")]]] in
  (∃ d, resolveField referenceRuntime (Ident "fooSubsystem") = Fatal d
        ∧ main referenceRuntime w ["pkg"; "metrics.md"] = Aborted d
        ∧ (isSymbol (Ident "fooSubsystem") → diagnosticNames referenceRuntime d "fooSubsystem")
        ∧ outputFile (main referenceRuntime w ["pkg"; "metrics.md"]) = None)
  ∧ (∃ d, main referenceRuntime w ["pkg"; "metrics.md"] = Aborted d
          ∧ outputFile (main referenceRuntime w ["pkg"; "metrics.md"]) = None).
Proof.
  intros w.
  assert (Hfirst : fieldAt firstFatal referenceRuntime w ["pkg"] (Ident "fooSubsystem")).
  { exists "pkg", [ {| pkgName := "metrics"; pkgFiles :=
        [[declaring [("Subsystem", Ident "fooSubsystem"); ("Name", Ident "barKey")]]] |} ],
      {| pkgName := "metrics"; pkgFiles :=
        [[declaring [("Subsystem", Ident "fooSubsystem"); ("Name", Ident "barKey")]]] |},
      [declaring [("Subsystem", Ident "fooSubsystem"); ("Name", Ident "barKey")]].
    eexists _, _, _, _, "prometheus", _, (Ident "Subsystem").
    unfold firstFatal.
    repeat (split; [first [reflexivity | by_compute
                          | exists [], []; split; [reflexivity|constructor]
                          | eexists [], _; split; [reflexivity|constructor] ]|]).
    by_compute. }
  assert (Hany : fieldAt anywhere referenceRuntime w ["pkg"] (Ident "fooSubsystem")).
  { exists "pkg", [ {| pkgName := "metrics"; pkgFiles :=
        [[declaring [("Subsystem", Ident "fooSubsystem"); ("Name", Ident "barKey")]]] |} ],
      {| pkgName := "metrics"; pkgFiles :=
        [[declaring [("Subsystem", Ident "fooSubsystem"); ("Name", Ident "barKey")]]] |},
      [declaring [("Subsystem", Ident "fooSubsystem"); ("Name", Ident "barKey")]].
    eexists _, _, _, _, "prometheus", _, (Ident "Subsystem").
    unfold anywhere.
    repeat (split; [first [reflexivity | by_compute | left]|]).
    by_compute. }
  destruct (unresolved_symbol_aborts referenceRuntime w ["pkg"; "metrics.md"]
              (Ident "fooSubsystem") "fooSubsystem" eq_refl eq_refl) as [H1 H2].
  split; [|exact (H2 Hany)].
  apply (H1 Hfirst). simpl. lia.
Defined.

(** ** C7: two runs on the same sources *)













Lemma sameKeySameRecord_elem (l : list metricInfo) (a b : metricInfo) :
  sameKeySameRecord l → a ∈ l → b ∈ l → dedupeKey a = dedupeKey b → a = b.
Proof.
  unfold sameKeySameRecord. rewrite Forall_forall. intros H Ha Hb.
  specialize (H a Ha). rewrite Forall_forall in H. by apply H.
Qed.

(** The dedupe keeps a record for every key it meets. *)
Lemma uniqByFrom_represents {A} (iteratee : A → string) seen (l : list A) (x : A) :
  x ∈ l → iteratee x ∉ seen →
  ∃ y, y ∈ Go.uniqByFrom iteratee seen l ∧ iteratee y = iteratee x.
Proof.
  revert seen. induction l as [|z l IH]; intros seen Hx Hseen; [by apply elem_of_nil in Hx|].
  simpl. destruct (decide (iteratee z ∈ seen)) as [Hz|Hz].
  - apply elem_of_cons in Hx as [->|Hx]; [done|]. by apply IH.
  - apply elem_of_cons in Hx as [->|Hx]; [exists z; split; [left|done]|].
    destruct (decide (iteratee x = iteratee z)) as [Heq|Hne].
    + exists z. split; [left|done].
    + destruct (IH ({[iteratee z]} ∪ seen) Hx) as (y & Hy & Hk).
      * intros [Hin|Hin]%elem_of_union; [|done]. by apply elem_of_singleton in Hin.
      * exists y. split; [by right|done].
Qed.













(** * Further properties of the generator *)

(** ** The callee of a call *)

(** X1.  [getFuncPackage] looks through any nesting of parentheses, pointer
    stars and index expressions; what is left decides: a selector gives its
    printed operand, an identifier its name, a function literal the empty
    qualifier, and anything else is fatal with that inner node in the
    diagnostic. *)
Theorem getFuncPackage_looks_through_wrappers (G : runtime) (fn : expr) :
  getFuncPackage G fn = getFuncPackage G (calleeCore fn)
  ∧ getFuncPackage G fn
    = match calleeCore fn with
      | SelectorExpr X _ => Ok (exprString G X)
      | Ident Name => Ok Name
      | FuncLit => Ok ""
      | core => Fatal (UnsupportedFuncExpression core)
      end.
Proof.
  induction fn; simpl; try done.
Qed.

(** ** What the scanner does not look at *)

(** Elements that return nothing can be left out of the loop. *)
Lemma appendEach_filter {A B} (f : A → result (list B)) (keep : A → bool) acc (l : list A) :
  (∀ x, keep x = false → f x = Ok []) →
  appendEach f acc l = appendEach f acc (filter (λ x, keep x = true) l).
Proof.
  intros Hf. revert acc. induction l as [|x l IH]; intros acc; [done|].
  rewrite filter_cons. destruct (keep x) eqn:E; simpl.
  - destruct (f x); simpl; [apply IH|done].
  - rewrite (Hf x E). simpl. rewrite app_nil_r. apply IH.
Qed.

(** X2.  Only variable declarations, their value specs, the initializers
    that are calls and the arguments that are composite literals matter to
    the scan: a file scans like the file without its other declarations (so
    nothing in a function body, constant, type or import is ever resolved or
    fatal), and likewise at each level below. *)
Theorem scan_inspects_only_variable_initializers (G : runtime) :
  (∀ f : file, scanFile G f = scanFile G (filter (λ d, isVarDecl d = true) f))
  ∧ (∀ Specs, handleVariableDeclaration G Specs
              = handleVariableDeclaration G (filter (λ s, isValueSpec s = true) Specs))
  ∧ (∀ Values, scanSpec G (ValueSpec Values)
               = scanSpec G (ValueSpec (filter (λ v, isCallExpr v = true) Values)))
  ∧ (∀ Fun Args, scanInitializer G (CallExpr Fun Args)
                 = scanInitializer G
                     (CallExpr Fun (filter (λ arg, isCompositeLit arg = true) Args))).
Proof.
  split; [|split; [|split]].
  - intros f. apply appendEach_filter. intros [|[] ?|]; simpl; done.
  - intros Specs. apply appendEach_filter. by intros [|].
  - intros Values. apply (appendEach_filter (scanInitializer G) isCallExpr).
    intros []; simpl; done.
  - intros Fun Args. cbn [scanInitializer].
    destruct (getFuncPackage G Fun) as [funcPkg|]; cbn [bind]; [|done].
    destruct (acceptedQualifier funcPkg); [|done].
    apply appendEach_filter. intros []; simpl; done.
Qed.

(** ** When a field value resolves *)

(** X3.  A field value resolves exactly when it is a string literal, an
    identifier or a selector that the table maps, or a concatenation whose
    operands are chains of literals; every other value is fatal.  Whatever
    it resolves to has no quote at either end. *)
Theorem resolveField_resolves_iff (G : runtime) (val : expr) :
  ((∃ s, resolveField G val = Ok s) ↔ resolvable G val)
  ∧ ∀ s, resolveField G val = Ok s → trimmed s.
Proof.
  split.
  - unfold resolveField. destruct val as [v|n|X Sel|X Y| | | | | | | |];
      cbn [fieldValue resolvable bind];
      try (split; [intros [? ?]; done | done]).
    + split; [done|]. intros _. by eexists.
    + unfold getIdentMapping. destruct (identMapping !! n) as [v|]; cbn [bind].
      * split; [by eexists | intros _; by eexists].
      * split; [intros [? ?]; done | intros [? ?]; done].
    + unfold getIdentMapping.
      destruct (identMapping !! (exprString G X +:+ "." +:+ Sel)) as [v|]; cbn [bind].
      * split; [by eexists | intros _; by eexists].
      * split; [intros [? ?]; done | intros [? ?]; done].
    + change (getBinaryExpr (BinaryExpr X Y)) with (binaryOperand (BinaryExpr X Y)).
      split.
      * intros [s Hs]. destruct (binaryOperand (BinaryExpr X Y)) as [t|] eqn:E; [|done].
        apply binaryOperand_Ok_chain in E. by inversion E.
      * intros [HX HY]. rewrite (binaryOperand_chain (BinaryExpr X Y)) by by constructor.
        by eexists.
  - intros s. unfold resolveField. destruct (fieldValue G val) as [v|]; [|done].
    cbn [bind]. intros [= <-]. apply TrimQuotes_trimmed.
Qed.

(** ** Literals *)

Lemma trimRightQuotes_quote (t : string) :
  Go.trimRightQuotes (t +:+ String Go.quote "") = Go.trimRightQuotes t.
Proof.
  induction t as [|c t IH]; [done|].
  rewrite string_app_cons. cbn [Go.trimRightQuotes]. by rewrite IH.
Qed.

Lemma trimLeftQuotes_quote (s : string) :
  Go.trimLeftQuotes (s +:+ String Go.quote "")
  = match Go.trimLeftQuotes s with
    | EmptyString => EmptyString
    | t => t +:+ String Go.quote ""
    end.
Proof.
  induction s as [|c s IH]; [done|].
  rewrite string_app_cons. cbn [Go.trimLeftQuotes].
  destruct (Ascii.eqb c Go.quote); [done|]. by rewrite string_app_cons.
Qed.

Lemma TrimQuotes_quoted (s : string) : Go.TrimQuotes (quoted s) = Go.TrimQuotes s.
Proof.
  unfold Go.TrimQuotes, quoted. cbn [Go.trimLeftQuotes].
  replace (Ascii.eqb Go.quote Go.quote) with true by done.
  rewrite trimLeftQuotes_quote.
  destruct (Go.trimLeftQuotes s) as [|c t] eqn:E; [done|].
  by rewrite trimRightQuotes_quote.
Qed.

(** X4.  A string literal resolves to its content without the quotes at its
    ends: the two quotes of the literal and every further leading or
    trailing quote of the content are removed.  The content itself comes
    back exactly when it has no quote at either end. *)
Theorem literal_resolves_to_trimmed_content (G : runtime) (s : string) :
  resolveField G (literal s) = Ok (Go.TrimQuotes s)
  ∧ (resolveField G (literal s) = Ok s ↔ trimmed s).
Proof.
  assert (E : resolveField G (literal s) = Ok (Go.TrimQuotes s)).
  { unfold resolveField, literal. cbn [fieldValue bind]. by rewrite TrimQuotes_quoted. }
  split; [done|]. rewrite E. split.
  - intros [= H]. rewrite <- H. apply TrimQuotes_trimmed.
  - intros H. by rewrite TrimQuotes_id.
Qed.

(** ** The fields of a composite literal *)

Lemma scanElements_app (G : runtime) (m : gmap string string) (l1 l2 : list expr) :
  scanElements G m (l1 ++ l2) = do m' <- scanElements G m l1; scanElements G m' l2.
Proof.
  revert m. induction l1 as [|el l1 IH]; intros m; [done|].
  cbn [app scanElements]. destruct (scanElement G m el) as [m'|]; cbn [bind]; [apply IH|done].
Qed.

(** X5.  A field given again later in the same composite literal replaces
    the earlier value of that field (Go's map assignment) and leaves every
    other field as it was. *)
Theorem later_field_overrides (G : runtime) (m m' : gmap string string)
  (Elts : list expr) (Key val : expr) (s : string) :
  scanElements G m Elts = Ok m' →
  exprString G Key ∈ metricKeys →
  resolveField G val = Ok s →
  ∃ m'', scanElements G m (Elts ++ [KeyValueExpr Key val]) = Ok m''
         ∧ index m'' (exprString G Key) = s
         ∧ ∀ key, key ≠ exprString G Key → index m'' key = index m' key.
Proof.
  intros Hscan Hkey Hval. exists (<[exprString G Key := s]> m').
  rewrite scanElements_app, Hscan. cbn [bind scanElements scanElement].
  rewrite bool_decide_eq_true_2 by done. rewrite Hval. cbn [bind].
  split; [done|]. unfold index. split.
  - by rewrite lookup_insert_eq.
  - intros key Hne. by rewrite lookup_insert_ne.
Qed.

Lemma later_field_overrides_witness :
  ∃ m'', scanElements referenceRuntime ∅
           ([KeyValueExpr (Ident "Name") (literal "first");
             KeyValueExpr (Ident "Help") (literal "help")]
            ++ [KeyValueExpr (Ident "Name") (literal "second")]) = Ok m''
         ∧ index m'' (exprString referenceRuntime (Ident "Name")) = "second"
         ∧ ∀ key, key ≠ exprString referenceRuntime (Ident "Name") →
                  index m'' key
                  = index (<["Help" := "help"]> (<["Name" := "first"]> ∅)) key.
Proof.
  apply (later_field_overrides referenceRuntime ∅
           (<["Help" := "help"]> (<["Name" := "first"]> ∅))).
  - reflexivity.
  - by_compute.
  - reflexivity.
Defined.

(** ** The packages of a root *)

(** X6.  [getPackages]: when every directory under the root parses, the
    result is the packages of all directories, in the order of the walk,
    without those whose name ends in [_test]; otherwise the run is fatal
    with the error of the first directory that fails to parse, whatever
    comes after it. *)
Theorem getPackages_parsed_or_fatal (w : world) (root : string) :
  (∀ dirs, walkDir w root = Parsed <$> dirs →
           getPackages w root
           = Ok (filter (λ pkg, Go.HasSuffix (pkgName pkg) "_test" = false) (concat dirs)))
  ∧ (∀ dirs err rest, walkDir w root = (Parsed <$> dirs) ++ ParseFailed err :: rest →
                      getPackages w root = Fatal (ErrorParsing err))
  ∧ ((∃ dirs, walkDir w root = Parsed <$> dirs)
     ∨ ∃ dirs err rest, walkDir w root = (Parsed <$> dirs) ++ ParseFailed err :: rest).
Proof.
  unfold getPackages.
  assert (Hok : ∀ dirs acc,
             appendEach keptPackages acc (Parsed <$> dirs)
             = Ok (acc ++ filter (λ pkg, Go.HasSuffix (pkgName pkg) "_test" = false)
                            (concat dirs))).
  { induction dirs as [|d dirs IH]; intros acc; cbn [fmap list_fmap appendEach concat].
    - by rewrite app_nil_r.
    - cbn [keptPackages bind]. rewrite IH, filter_app, app_assoc. done. }
  split; [|split].
  - intros dirs ->. apply Hok.
  - intros dirs err rest ->. apply appendEach_Fatal.
    exists (Parsed <$> dirs), (ParseFailed err), rest. split; [done|]. split; [|done].
    apply Forall_fmap, Forall_forall. intros d _. by eexists.
  - induction (walkDir w root) as [|d l IH]; [left; by exists []|].
    destruct d as [err|pkgs]; [right; by exists [], err, l|].
    destruct IH as [[dirs ->]|(dirs & err & rest & ->)].
    + left. by exists (pkgs :: dirs).
    + right. by exists (pkgs :: dirs), err, rest.
Qed.

(** ** The dedupe keeps first occurrences *)

Lemma uniqByFrom_sublist {A} (iteratee : A → string) seen (l : list A) :
  sublist (Go.uniqByFrom iteratee seen l) l.
Proof.
  revert seen. induction l as [|y l IH]; intros seen; cbn [Go.uniqByFrom]; [constructor|].
  destruct (decide (iteratee y ∈ seen)); [apply sublist_cons | apply sublist_skip]; apply IH.
Qed.

(** X7.  The dedupe keeps, in their order, exactly the records that are the
    first with their key: the result is a sublist of the input with
    pairwise distinct keys, a record is in it exactly when some occurrence
    of it has no record of the same key before it, and a second dedupe
    changes nothing. *)
Theorem dedupe_keeps_first_occurrences (allMetrics : list metricInfo) :
  sublist (dedupe allMetrics) allMetrics
  ∧ NoDup (dedupeKey <$> dedupe allMetrics)
  ∧ (∀ m, m ∈ dedupe allMetrics ↔
          ∃ l1 l2, allMetrics = l1 ++ m :: l2 ∧ dedupeKey m ∉ (dedupeKey <$> l1))
  ∧ dedupe (dedupe allMetrics) = dedupe allMetrics.
Proof.
  split; [apply uniqByFrom_sublist|]. split; [apply dedupe_NoDup|]. split.
  - intros m. unfold dedupe, Go.UniqBy. rewrite uniqByFrom_first. split.
    + intros (l1 & l2 & ? & _ & ?). by exists l1, l2.
    + intros (l1 & l2 & ? & ?). exists l1, l2. split; [done|]. split; [|done].
      apply not_elem_of_empty.
  - unfold dedupe at 1. unfold Go.UniqBy.
    rewrite uniqByFrom_filter by apply dedupe_NoDup.
    apply filter_all. intros x _. apply not_elem_of_empty.
Qed.

(** ** Scanned declarations and the catalogue *)

(** X8.  After the dedupe, the scanned records come first, deduplicated
    among themselves, followed by the catalogue records whose key no scanned
    record has: a scanned declaration always takes precedence over the
    synthesized record of the same key, help text included. *)
Theorem scanned_records_shadow_the_catalogue (scanned : list metricInfo) :
  dedupe (addPatternBasedMetrics scanned)
  = dedupe scanned
    ++ filter (λ c, dedupeKey c ∉ (dedupeKey <$> scanned)) (addPatternBasedMetrics []).
Proof.
  rewrite (dedupe_catalogue scanned). f_equal.
Qed.

(** ** The drop and the fold as one pass each *)

(** X9.  Normalization as one pass: the records of the dedupe whose bare
    name starts with none of the three dropped prefixes, each folded on its
    own.  The drop tests the name as declared (before any fold, and without
    namespace or subsystem), so a record is dropped or kept whatever the
    fold would make of it, and the fold of one record does not depend on
    the others. *)
Theorem normalize_in_one_pass (scanned : list metricInfo) :
  normalize scanned
  = foldRecord
    <$> filter (λ m, Forall (λ prefix, Go.HasPrefix (name m) prefix = false) droppedPrefixes)
          (dedupe (addPatternBasedMetrics scanned)).
Proof. unfold normalize. by rewrite foldPrefixes_map, dropMetrics_filter. Qed.

(** ** Folding and the qualified name *)

Lemma HasPrefix_split (s p : string) :
  Go.HasPrefix s p = true → s = p +:+ Go.sliceFrom (String.length p) s.
Proof.
  unfold Go.HasPrefix. revert s. induction p as [|c p IH]; intros s; [done|].
  destruct s as [|d s]; [done|]. cbn [String.prefix].
  destruct (Ascii.ascii_dec c d) as [->|]; [|done].
  intros H. rewrite string_app_cons. cbn [String.length Go.sliceFrom]. f_equal. by apply IH.
Qed.

Lemma foldPrefix_cases (prefix : string) (m : metricInfo) :
  foldPrefix prefix m = m
  ∨ ∃ rest, subsystem m = "" ∧ name m = prefix +:+ "_" +:+ rest
            ∧ foldPrefix prefix m
              = {| namespace := namespace m; subsystem := prefix; name := rest;
                   help := help m |}.
Proof.
  destruct (bool_decide (subsystem m = "") && Go.HasPrefix (name m) (prefix +:+ "_")) eqn:E.
  - right. apply andb_true_iff in E as [Hs Hp]. apply bool_decide_eq_true in Hs.
    apply HasPrefix_split in Hp. rewrite string_app_assoc in Hp.
    eexists. split; [done|]. split; [exact Hp|]. by apply foldPrefix_hit.
  - left. by apply foldPrefix_miss.
Qed.

Lemma foldRecordFrom_cases (prefixes : list string) (m : metricInfo) :
  Forall (λ prefix, prefix ≠ "") prefixes →
  foldRecordFrom prefixes m = m
  ∨ ∃ prefix rest, prefix ∈ prefixes ∧ subsystem m = "" ∧ name m = prefix +:+ "_" +:+ rest
                   ∧ foldRecordFrom prefixes m
                     = {| namespace := namespace m; subsystem := prefix; name := rest;
                          help := help m |}.
Proof.
  intros Hne. revert m. induction Hne as [|p ps Hp _ IH]; intros m; [by left|].
  rewrite foldRecordFrom_cons.
  destruct (foldPrefix_cases p m) as [->|(rest & Hs & Hn & ->)].
  - destruct (IH m) as [?|(prefix & rest & Hin & ? & ? & ?)]; [by left|].
    right. exists prefix, rest. split; [by right|done].
  - right. exists p, rest. split; [left|]. split; [done|]. split; [done|].
    by apply foldRecordFrom_named.
Qed.

Lemma string_app_inv_l (a b c : string) : a +:+ b = a +:+ c → b = c.
Proof.
  induction a as [|x a IH]; [done|]. rewrite !string_app_cons. intros [= H]. by apply IH.
Qed.

Lemma qualifiedName_folded (ns prefix rest h : string) :
  prefix ≠ "" → rest ≠ "" →
  qualifiedName {| namespace := ns; subsystem := prefix; name := rest; help := h |}
  = qualifiedName {| namespace := ns; subsystem := ""; name := prefix +:+ "_" +:+ rest;
                     help := h |}.
Proof.
  intros Hp Hr. destruct prefix as [|c p]; [done|]. destruct rest as [|d r]; [done|].
  destruct ns as [|a ns]; reflexivity.
Qed.

Lemma qualifiedName_trailing (ns prefix h : string) :
  prefix ≠ "" →
  qualifiedName {| namespace := ns; subsystem := prefix; name := ""; help := h |}
  ≠ qualifiedName {| namespace := ns; subsystem := ""; name := prefix +:+ "_"; help := h |}.
Proof.
  intros Hp. destruct prefix as [|c p]; [done|].
  assert (Hne : String c p ≠ String c p +:+ "_").
  { intros E. rewrite <- (string_app_nil_r (String c p)) in E at 1.
    by apply string_app_inv_l in E. }
  destruct ns as [|a ns].
  - exact Hne.
  - change (String a ns +:+ "_" +:+ String c p ≠ String a ns +:+ "_" +:+ (String c p +:+ "_")).
    intros E. apply string_app_inv_l in E. apply Hne. by apply (string_app_inv_l "_").
Qed.

(** X10.  The prefix fold moves text between the fields and leaves the
    qualified name (the heading of the metric's block) as it was, with one
    exception: a record without subsystem whose name is exactly a folded
    prefix and its underscore is left with an empty name, and its
    qualified name loses the trailing underscore. *)
Theorem fold_keeps_the_qualified_name (m : metricInfo) :
  qualifiedName (foldRecord m) = qualifiedName m ↔
  ¬ (subsystem m = "" ∧ ∃ prefix, prefix ∈ foldedSubsystems ∧ name m = prefix +:+ "_").
Proof.
  assert (Hne : Forall (λ prefix, prefix ≠ "") foldedSubsystems) by by_compute.
  split.
  - intros Hq (Hs & prefix & Hin & Hn).
    assert (Hp : prefix ≠ "") by (by eapply Forall_forall in Hne).
    rewrite (foldRecord_hit prefix "" m Hin Hs) in Hq by (by rewrite Hn).
    destruct m as [ns ss nm h]. cbn [namespace subsystem name help] in *. subst ss nm.
    by apply qualifiedName_trailing in Hq.
  - intros Hex. unfold foldRecord.
    destruct (foldRecordFrom_cases foldedSubsystems m Hne)
      as [->|(prefix & rest & Hin & Hs & Hn & ->)]; [done|].
    assert (Hp : prefix ≠ "") by (by eapply Forall_forall in Hne).
    assert (Hr : rest ≠ "").
    { intros ->. apply Hex. split; [done|]. exists prefix. split; [done|].
      by rewrite Hn. }
    destruct m as [ns ss nm h]. cbn [namespace subsystem name help] in *. subst ss nm.
    by apply qualifiedName_folded.
Qed.

(** ** The key of the dedupe and the identity of a record *)

Lemma slashes_app (a b : string) : slashes (a +:+ b) = (slashes a + slashes b)%nat.
Proof.
  induction a as [|c a IH]; [done|]. rewrite string_app_cons. cbn [slashes]. rewrite IH. lia.
Qed.

Lemma slashes_dedupeKey (m : metricInfo) :
  slashes (dedupeKey m)
  = (slashes (namespace m) + slashes (subsystem m) + slashes (name m) + 2)%nat.
Proof.
  unfold dedupeKey. rewrite !slashes_app. change (slashes "/") with 1%nat. lia.
Qed.

Lemma slash_split (a a' r r' : string) :
  slashes a = O → slashes a' = O →
  a +:+ "/" +:+ r = a' +:+ "/" +:+ r' → a = a' ∧ r = r'.
Proof.
  assert (Hs : ∀ t, "/" +:+ t = String "/" t) by done.
  revert a'. induction a as [|c a IH]; intros [|c' a'];
    rewrite ?string_app_cons, ?string_app_nil_l, ?Hs; cbn [slashes].
  - intros _ _ [= E]. done.
  - intros _ H [= <- _]. done.
  - intros H _ [= -> _]. done.
  - intros H H' [= <- E].
    destruct (IH a') as [-> ->]; [lia|lia|exact E|done].
Qed.

Lemma dedupeKey_inj (m m' : metricInfo) :
  slashFree m' → dedupeKey m = dedupeKey m' → identity m = identity m'.
Proof.
  intros (Hn & Hs & Hm) E.
  assert (Hc : slashes (dedupeKey m) = slashes (dedupeKey m')) by by rewrite E.
  rewrite !slashes_dedupeKey in Hc.
  unfold dedupeKey in E.
  apply slash_split in E as [E1 E]; [|lia|lia].
  apply slash_split in E as [E2 E3]; [|lia|lia].
  unfold identity. by rewrite E1, E2, E3.
Qed.

(** X11.  The key of the dedupe stands for the identity of a record as long
    as names hold no [/]: records with the same identity have the same key,
    and a record whose key equals that of a record without [/] in its
    fields has that record's identity.  With a [/] in a field, two
    different identities can share a key, and the dedupe then discards the
    later of two different metrics. *)
Theorem dedupe_key_stands_for_identity :
  (∀ m m', identity m = identity m' → dedupeKey m = dedupeKey m')
  ∧ (∀ m m', slashFree m' → dedupeKey m = dedupeKey m' → identity m = identity m')
  ∧ (∃ m m', dedupeKey m = dedupeKey m' ∧ identity m ≠ identity m'
             ∧ dedupe [m; m'] = [m]).
Proof.
  split; [|split].
  - intros m m' [= E1 E2 E3]. unfold dedupeKey. by rewrite E1, E2, E3.
  - apply dedupeKey_inj.
  - exists {| namespace := "a/b"; subsystem := "c"; name := "d"; help := "" |},
           {| namespace := "a"; subsystem := "b/c"; name := "d"; help := "" |}.
    split; [reflexivity|]. split; [done|]. reflexivity.
Qed.

(** ** The catalogue in the document *)

Lemma foldPrefix_withHelp (prefix h : string) (m : metricInfo) :
  foldPrefix prefix (withHelp h m) = withHelp h (foldPrefix prefix m).
Proof.
  unfold foldPrefix. cbn [withHelp subsystem name namespace help].
  by destruct (bool_decide (subsystem m = "") && Go.HasPrefix (name m) (prefix +:+ "_")).
Qed.

Lemma foldRecordFrom_withHelp (prefixes : list string) (h : string) (m : metricInfo) :
  foldRecordFrom prefixes (withHelp h m) = withHelp h (foldRecordFrom prefixes m).
Proof.
  revert m. induction prefixes as [|p ps IH]; intros m; [done|].
  by rewrite !foldRecordFrom_cons, foldPrefix_withHelp, IH.
Qed.

Lemma identity_withHelp (m m' : metricInfo) : identity m = identity m' → m = withHelp (help m) m'.
Proof. destruct m, m'. unfold identity, withHelp. simpl. by intros [= -> -> ->]. Qed.

Lemma main_Written_inv (G : runtime) (w : world) (args : list string) (body : list chunk) :
  main G w args = Written body →
  ∃ scanned, scanRoots G w (take (length args - 1) args) = Ok scanned
             ∧ renderMetrics [] "" (sortedMetrics G scanned) = Completed body.
Proof.
  unfold main. destruct (length args <? 2)%nat; [done|].
  destruct (scanRoots G w _) as [scanned|]; [|done].
  destruct (createSucceeds w _); [|done].
  destruct (renderMetrics [] "" (sortedMetrics G scanned)) eqn:Hr; [|done].
  intros [= <-]. by exists scanned.
Qed.

Lemma qualifiedName_withHelp (h : string) (m : metricInfo) :
  qualifiedName (withHelp h m) = qualifiedName m.
Proof. reflexivity. Qed.

Lemma stabilityOf_withHelp (h : string) (m : metricInfo) :
  stabilityOf (withHelp h m) = stabilityOf m.
Proof. reflexivity. Qed.

(** X12.  Every metric of the synthesizer's catalogue has a block in every
    document that is written completely, whatever was scanned.  The block
    stands under the catalogue's qualified name, with the stability tier of
    the catalogue record after the prefix fold, and with the help text of
    the first record that has the catalogue record's key among the scanned
    records followed by the catalogue: the catalogue's own text, or that of
    a scanned declaration of the same key. *)
Theorem catalogue_metrics_are_always_documented (G : runtime) (w : world)
  (args : list string) (body : list chunk) (c : metricInfo) :
  main G w args = Written body →
  c ∈ addPatternBasedMetrics [] →
  ∃ scanned before y after,
    scanRoots G w (take (length args - 1) args) = Ok scanned
    ∧ scanned ++ addPatternBasedMetrics [] = before ++ y :: after
    ∧ dedupeKey y = dedupeKey c
    ∧ (dedupeKey c ∉ dedupeKey <$> before)
    ∧ (y = c ∨ y ∈ scanned)
    ∧ MetricEntry (qualifiedName c) (help y) (stabilityOf (foldRecord c)) ∈ body.
Proof.
  intros Hmain Hc.
  apply main_Written_inv in Hmain as (scanned & Hscan & Hr).
  assert (Hall : Forall (λ c, slashFree c
                              ∧ Forall (λ prefix, Go.HasPrefix (name c) prefix = false)
                                  droppedPrefixes
                              ∧ qualifiedName (foldRecord c) = qualifiedName c
                              ∧ qualifiedName c ≠ "")
                   (addPatternBasedMetrics [])) by by_compute.
  rewrite Forall_forall in Hall. destruct (Hall c Hc) as (Hfree & Hkeep & Hq & Hne).
  assert (Hcat : sameKeySameRecord (addPatternBasedMetrics [])) by by_compute.
  assert (Hin : c ∈ addPatternBasedMetrics scanned).
  { rewrite addPatternBasedMetrics_app, elem_of_app. by right. }
  destruct (uniqByFrom_represents dedupeKey ∅ _ c Hin (not_elem_of_empty _))
    as (y & Hy & Hkey).
  apply uniqByFrom_first in Hy as (before & after & Hl & _ & Hbefore).
  pose proof (dedupeKey_inj y c Hfree Hkey) as Hid.
  pose proof (identity_withHelp y c Hid) as Ey.
  assert (Hname : name y = name c) by (by injection Hid).
  assert (Efold : foldRecord y = withHelp (help y) (foldRecord c)).
  { rewrite Ey at 1. apply foldRecordFrom_withHelp. }
  exists scanned, before, y, after. split; [done|].
  split; [by rewrite <- addPatternBasedMetrics_app|]. split; [done|].
  split; [by rewrite <- Hkey|]. split.
  - assert (Hy : y ∈ addPatternBasedMetrics scanned).
    { rewrite Hl, elem_of_app. right. left. }
    rewrite addPatternBasedMetrics_app, elem_of_app in Hy. destruct Hy as [?|Hy]; [by right|].
    left. by apply (sameKeySameRecord_elem (addPatternBasedMetrics [])).
  - pose proof (first_of_key_rendered G scanned before after y body Hl Hbefore) as Hent.
    rewrite Efold, qualifiedName_withHelp, stabilityOf_withHelp, Hq, Hname in Hent.
    by apply Hent.
Qed.

Lemma catalogue_metrics_are_always_documented_witness :
  let w := sourceTree [[declaring [("Namespace", literal "karpenter");
                                   ("Name", literal "build_info");
                                   ("Help", literal "Build information.")];
                        declaring [("Name", literal "client_go_request_total");
                                   ("Help", literal "Requests sent.")]]] in
  let scanned := [ {| namespace := "karpenter"; subsystem := ""; name := "build_info";
                      help := "Build information." |}; emptyRecord;
                   {| namespace := ""; subsystem := ""; name := "client_go_request_total";
                      help := "Requests sent." |}; emptyRecord ] in
  let c := {| namespace := ""; subsystem := ""; name := "client_go_request_total";
              help := "Number of HTTP requests, partitioned by status code and method." |} in
  ∃ scanned' before y after,
    scanRoots referenceRuntime w (take (length ["pkg"; "metrics.md"] - 1) ["pkg"; "metrics.md"])
    = Ok scanned'
    ∧ scanned' ++ addPatternBasedMetrics [] = before ++ y :: after
    ∧ dedupeKey y = dedupeKey c
    ∧ (dedupeKey c ∉ dedupeKey <$> before)
    ∧ (y = c ∨ y ∈ scanned')
    ∧ MetricEntry (qualifiedName c) (help y) (stabilityOf (foldRecord c))
      ∈ bodyOf (renderMetrics [] "" (sortedMetrics referenceRuntime scanned)).
Proof.
  intros w scanned c.
  apply (catalogue_metrics_are_always_documented referenceRuntime w ["pkg"; "metrics.md"]).
  - vm_compute. reflexivity.
  - by_compute.
Defined.

(** The tier of the two [client_go] records of the catalogue is that of the
    folded record: the fold gives them the subsystem [client_go], which is
    listed as stable. *)
Example client_go_tier_after_the_fold :
  let c := {| namespace := ""; subsystem := ""; name := "client_go_request_total";
              help := "Number of HTTP requests, partitioned by status code and method." |} in
  c ∈ addPatternBasedMetrics [] ∧ stabilityOf c = ALPHA ∧ stabilityOf (foldRecord c) = STABLE.
Proof. intros c. split; [by_compute|]. split; reflexivity. Qed.

(** ** The blocks of the document *)

Lemma entries_app (a b : list chunk) : entries (a ++ b) = entries a ++ entries b.
Proof. apply filter_app. Qed.

Lemma renderEntry_named (m : metricInfo) : renderEntry m = entryOf <$> named [m].
Proof.
  unfold renderEntry, named. case_bool_decide as Hq.
  - by rewrite filter_cons_True, filter_nil by done.
  - rewrite filter_cons_False, filter_nil by tauto. done.
Qed.

Lemma entries_renderEntry (m : metricInfo) : entries (renderEntry m) = entryOf <$> named [m].
Proof.
  unfold renderEntry, named. case_bool_decide as Hq.
  - by rewrite filter_cons_True, filter_nil by done.
  - rewrite filter_cons_False, filter_nil by tauto. done.
Qed.

Lemma named_cons (m : metricInfo) (l : list metricInfo) : named (m :: l) = named [m] ++ named l.
Proof. apply (filter_app _ [m] l). Qed.

Lemma entries_heading previousTitle metric heading previousTitle' :
  renderGroup previousTitle metric = Some (heading, previousTitle') → entries heading = [].
Proof. intros [->|[title ->]]%renderGroup_heading; done. Qed.

Lemma renderMetrics_entries written previousTitle allMetrics :
  match renderMetrics written previousTitle allMetrics with
  | Completed body => entries body = entries written ++ (entryOf <$> named allMetrics)
  | Panic partial =>
      ∃ l1 m l2, allMetrics = l1 ++ m :: l2
                 ∧ titled l1
                 ∧ subsystem m ≠ "" ∧ subsystemTitle (subsystem m) = None
                 ∧ entries partial = entries written ++ (entryOf <$> named l1)
  end.
Proof.
  revert written previousTitle.
  induction allMetrics as [|metric rest IH]; intros written previousTitle;
    cbn [renderMetrics].
  - by rewrite app_nil_r.
  - destruct (renderGroup previousTitle metric) as [[heading previousTitle']|] eqn:Hg.
    + specialize (IH (written ++ heading ++ renderEntry metric) previousTitle').
      assert (Hw : entries (written ++ heading ++ renderEntry metric)
                   = entries written ++ (entryOf <$> named [metric])).
      { by rewrite !entries_app, (entries_heading _ _ _ _ Hg), entries_renderEntry. }
      assert (Ht : subsystem metric = "" ∨ is_Some (subsystemTitle (subsystem metric))).
      { destruct (decide (subsystem metric = "")) as [|Hs]; [by left|right].
        destruct (subsystemTitle (subsystem metric)) eqn:E; [by eexists|].
        assert (renderGroup previousTitle metric = None) by by apply renderGroup_panics.
        congruence. }
      destruct (renderMetrics _ previousTitle' rest) as [body|partial].
      * by rewrite IH, Hw, (named_cons metric rest), fmap_app, app_assoc.
      * destruct IH as (l1 & m & l2 & -> & Hl1 & Hs & Hnone & IH).
        exists (metric :: l1), m, l2. split; [done|]. split; [by constructor|].
        split; [done|]. split; [done|].
        by rewrite IH, Hw, (named_cons metric l1), fmap_app, app_assoc.
    + apply renderGroup_panics in Hg as [Hs Hnone].
      exists [], metric, rest. split; [done|]. split; [constructor|].
      split; [done|]. split; [done|]. by rewrite app_nil_r.
Qed.

(** X13.  The metric blocks of a document are exactly the blocks of the
    records that have a qualified name, one per record and in the order of
    the sorted list.  When the renderer panics, the file holds the blocks
    of the records before the first record whose subsystem has no title,
    and none after it. *)
Theorem document_blocks_follow_the_records (allMetrics : list metricInfo) :
  match renderMetrics [] "" allMetrics with
  | Completed body => entries body = entryOf <$> named allMetrics
  | Panic partial =>
      ∃ l1 m l2, allMetrics = l1 ++ m :: l2
                 ∧ titled l1
                 ∧ subsystem m ≠ "" ∧ subsystemTitle (subsystem m) = None
                 ∧ entries partial = entryOf <$> named l1
  end.
Proof. apply (renderMetrics_entries [] ""). Qed.

(** ** The group headings of the document *)

Lemma titleWord_nonempty (s word : string) : titleWord s = Some word → word ≠ "".
Proof.
  unfold titleWord. case_bool_decide as H.
  - intros [= <-]. destruct H as [->| ->]; done.
  - destruct s as [|c rest]; [done|]. intros [= <-]. unfold Go.ToUpper1.
    destruct (nat_of_ascii c <? 128)%nat; by rewrite string_app_cons.
Qed.

Lemma subsystemTitle_nonempty (s title : string) : subsystemTitle s = Some title → title ≠ "".
Proof.
  unfold subsystemTitle. destruct (subsystemMap !! s) as [val|] eqn:Hmap.
  - intros [= <-]. apply elem_of_list_to_map_2 in Hmap.
    repeat (apply elem_of_cons in Hmap as [[= _ ->]|Hmap]; [done|]).
    by apply elem_of_nil in Hmap.
  - destruct (mapM titleWord (Go.Split s)) as [words|] eqn:E; [|done].
    cbn [mbind option_bind]. intros [= <-].
    pose proof (Split_nonempty s) as Hne.
    apply mapM_Some in E. destruct E as [|piece word pieces words' Hw _]; [done|].
    apply titleWord_nonempty in Hw. unfold Go.Join. destruct word as [|c word]; [done|].
    cbn [String.concat]. by destruct words'.
Qed.

Lemma headings_app (a b : list chunk) : headings (a ++ b) = headings a ++ headings b.
Proof. apply omap_app. Qed.

Lemma headings_renderEntry (m : metricInfo) : headings (renderEntry m) = [].
Proof. unfold renderEntry. by case_bool_decide. Qed.

Lemma noRepeat_renderMetrics written previousTitle allMetrics :
  ∃ titles, headings (bodyOf (renderMetrics written previousTitle allMetrics))
            = headings written ++ titles
            ∧ noRepeat previousTitle titles.
Proof.
  revert written previousTitle.
  induction allMetrics as [|metric rest IH]; intros written previousTitle;
    cbn [renderMetrics].
  - exists []. by rewrite app_nil_r.
  - destruct (renderGroup previousTitle metric) as [[heading previousTitle']|] eqn:Hg;
      [|exists []; by rewrite app_nil_r].
    destruct (IH (written ++ heading ++ renderEntry metric) previousTitle')
      as (titles & -> & Hno).
    rewrite !headings_app, headings_renderEntry, app_nil_r.
    revert Hg. unfold renderGroup. case_bool_decide as Hs.
    + destruct (subsystemTitle (subsystem metric)) as [title|]; [|done].
      cbn [mbind option_bind]. case_bool_decide as Ht; intros [= <- <-].
      * exists (title :: titles). by rewrite <- app_assoc.
      * exists titles. by rewrite app_nil_r.
    + intros [= <- <-]. exists titles. by rewrite app_nil_r.
Qed.

Lemma renderMetrics_extends written previousTitle allMetrics body :
  renderMetrics written previousTitle allMetrics = Completed body →
  ∃ more, body = written ++ more.
Proof.
  revert written previousTitle.
  induction allMetrics as [|metric rest IH]; intros written previousTitle;
    cbn [renderMetrics].
  - intros [= <-]. exists []. by rewrite app_nil_r.
  - destruct (renderGroup previousTitle metric) as [[heading previousTitle']|]; [|done].
    intros (more & ->)%IH. eexists. by rewrite <- app_assoc.
Qed.

Lemma Forall_renderEntry (m : metricInfo) : Forall (λ c, isEntry c = true) (renderEntry m).
Proof. unfold renderEntry. case_bool_decide; by repeat constructor. Qed.

Lemma renderMetrics_under_title written previousTitle allMetrics body :
  openGroup written previousTitle →
  renderMetrics written previousTitle allMetrics = Completed body →
  ∀ m, m ∈ allMetrics → subsystem m ≠ "" →
       ∃ title b1 es b2,
         subsystemTitle (subsystem m) = Some title
         ∧ body = b1 ++ GroupHeading title :: es ++ entryOf m :: b2
         ∧ Forall (λ c, isEntry c = true) es.
Proof.
  revert written previousTitle.
  induction allMetrics as [|metric rest IH]; intros written previousTitle Hopen;
    cbn [renderMetrics]; [intros _ m Hm; by apply elem_of_nil in Hm|].
  destruct (renderGroup previousTitle metric) as [[heading previousTitle']|] eqn:Hg; [|done].
  intros Hr m Hm Hs.
  assert (Hopen' : openGroup (written ++ heading ++ renderEntry metric) previousTitle'
                   ∧ (subsystem metric ≠ "" →
                      ∃ title b1 es,
                        subsystemTitle (subsystem metric) = Some title
                        ∧ written ++ heading ++ renderEntry metric
                          = b1 ++ GroupHeading title :: es ++ [entryOf metric]
                        ∧ Forall (λ c, isEntry c = true) es)).
  { revert Hg. unfold renderGroup. case_bool_decide as Hsub.
    - destruct (subsystemTitle (subsystem metric)) as [title|] eqn:Et; [|done].
      cbn [mbind option_bind].
      assert (Hq : renderEntry metric = [entryOf metric]).
      { unfold renderEntry. rewrite bool_decide_eq_true_2; [done|].
        intros (_ & ? & _)%qualifiedName_empty. done. }
      case_bool_decide as Ht; intros [= <- <-]; rewrite Hq.
      + split.
        * right. exists written, [entryOf metric]. split; [done|]. by repeat constructor.
        * intros _. exists title, written, []. done.
      + subst previousTitle.
        destruct Hopen as [->|(b1 & es & -> & Hes)];
          [by apply subsystemTitle_nonempty in Et|].
        split.
        * right. exists b1, (es ++ [entryOf metric]). split; [by rewrite <- app_assoc|].
          apply Forall_app. split; [done|]. by repeat constructor.
        * intros _. exists title, b1, es. split; [done|]. split; [|done].
          by rewrite <- app_assoc.
    - intros [= <- <-]. split; [|done].
      destruct Hopen as [->|(b1 & es & -> & Hes)]; [by left|].
      right. exists b1, (es ++ renderEntry metric). split; [by rewrite <- app_assoc|].
      apply Forall_app. split; [done|]. apply Forall_renderEntry. }
  destruct Hopen' as [Hopen' Hhead].
  apply elem_of_cons in Hm as [->|Hm]; [|by eapply IH].
  destruct (Hhead Hs) as (title & b1 & es & Et & Ew & Hes).
  apply renderMetrics_extends in Hr as (more & ->).
  exists title, b1, es, more. split; [done|]. split; [|done].
  rewrite Ew, <- app_assoc. f_equal. cbn [app]. f_equal. by rewrite <- app_assoc.
Qed.

(** X14.  The group headings of a completed document: no heading repeats
    the one before it, and every record that has a subsystem stands under
    the heading of its subsystem's title, with nothing but metric blocks
    between that heading and the record's own block. *)
Theorem records_stand_under_their_title (allMetrics : list metricInfo) (body : list chunk) :
  renderMetrics [] "" allMetrics = Completed body →
  noRepeat "" (headings body)
  ∧ ∀ m, m ∈ allMetrics → subsystem m ≠ "" →
         ∃ title b1 es b2,
           subsystemTitle (subsystem m) = Some title
           ∧ body = b1 ++ GroupHeading title :: es ++ entryOf m :: b2
           ∧ Forall (λ c, isEntry c = true) es.
Proof.
  intros Hr. split.
  - destruct (noRepeat_renderMetrics [] "" allMetrics) as (titles & E & Hno).
    rewrite Hr in E. cbn [bodyOf] in E. by rewrite E.
  - apply (renderMetrics_under_title [] ""); [by left|done].
Qed.

Lemma records_stand_under_their_title_witness :
  let pods := {| namespace := "karpenter"; subsystem := "pods"; name := "state";
                 help := "Pod state." |} in
  let body := [GroupHeading "Pods"; MetricEntry "karpenter_pods_state" "Pod state." BETA] in
  noRepeat "" (headings body)
  ∧ ∀ m, m ∈ [pods] → subsystem m ≠ "" →
         ∃ title b1 es b2,
           subsystemTitle (subsystem m) = Some title
           ∧ body = b1 ++ GroupHeading title :: es ++ entryOf m :: b2
           ∧ Forall (λ c, isEntry c = true) es.
Proof.
  intros pods body. apply (records_stand_under_their_title [pods] body). reflexivity.
Defined.

(** ** How a run ends *)

(** X15.  One directory that fails to parse, anywhere under any of the
    roots, makes the run abort: nothing is written, not even for the
    directories that parse. *)
Theorem unparsable_directory_aborts (G : runtime) (w : world) (args : list string)
  (root err : string) :
  root ∈ take (length args - 1) args →
  ParseFailed err ∈ walkDir w root →
  ∃ d, main G w args = Aborted d ∧ outputFile (main G w args) = None.
Proof.
  intros Hroot Hdir.
  destruct (appendEach_elem_Fatal keptPackages [] (walkDir w root) _ (ErrorParsing err) Hdir)
    as [d0 Hd0]; [done|].
  assert (Hr : scanRoot G w root = Fatal d0).
  { unfold scanRoot, getPackages. by rewrite Hd0. }
  destruct (appendEach_elem_Fatal (scanRoot G w) [] _ root d0 Hroot Hr) as [d1 Hd1].
  destruct (main_aborted G w args d1 Hd1) as [d Hd]. exists d. by rewrite Hd.
Qed.

Lemma unparsable_directory_aborts_witness :
  ∃ d, main referenceRuntime
         {| walkDir := λ _, [Parsed []; ParseFailed "expected declaration"];
            createSucceeds := λ _, true |}
         ["pkg"; "metrics.md"] = Aborted d
       ∧ outputFile
           (main referenceRuntime
              {| walkDir := λ _, [Parsed []; ParseFailed "expected declaration"];
                 createSucceeds := λ _, true |}
              ["pkg"; "metrics.md"]) = None.
Proof.
  apply (unparsable_directory_aborts referenceRuntime _ ["pkg"; "metrics.md"] "pkg"
           "expected declaration").
  - by_compute.
  - cbn [walkDir]. apply elem_of_cons. right. apply elem_of_cons. by left.
Defined.

Lemma not_titled (allMetrics : list metricInfo) :
  ¬ titled allMetrics ↔
  ∃ m, m ∈ allMetrics ∧ subsystem m ≠ "" ∧ subsystemTitle (subsystem m) = None.
Proof.
  unfold titled. split.
  - intros Hn. apply not_Forall_Exists in Hn; [|intros m; apply _].
    apply Exists_exists in Hn as (m & Hm & Hn). cbn in Hn.
    exists m. split; [done|]. split; [tauto|].
    destruct (subsystemTitle (subsystem m)) eqn:E; [|done]. exfalso. apply Hn. right. by eexists.
  - intros (m & Hm & Hs & Hnone) Hall. rewrite Forall_forall in Hall.
    destruct (Hall m Hm) as [?|[t Ht]]; congruence.
Qed.

Lemma titled_sortedMetrics (G : runtime) (scanned : list metricInfo) :
  titled (sortedMetrics G scanned) ↔ titled (normalize scanned).
Proof.
  unfold titled. rewrite !Forall_forall. split; intros H m Hm; apply H;
    by apply (sortedMetrics_elem G).
Qed.

(** X16.  The three ways a run ends.  It aborts, leaving no file, exactly
    when there are fewer than two arguments (usage), or the scan of the
    roots (all arguments but the last) is fatal, or the scan succeeds and
    the output file (the last argument) cannot be created: the output path
    is not touched before every root is scanned.  It panics after creating
    the file exactly when some normalized record has a subsystem without a
    title, and writes the complete document exactly when all have one. *)
Theorem run_outcomes (G : runtime) (w : world) (args : list string) :
  let roots := take (length args - 1) args in
  let outputFileName := default "" (last args) in
  (∀ d, main G w args = Aborted d ↔
        ((length args < 2)%nat ∧ d = Usage)
        ∨ ((2 ≤ length args)%nat ∧ scanRoots G w roots = Fatal d)
        ∨ ((2 ≤ length args)%nat ∧ (∃ scanned, scanRoots G w roots = Ok scanned)
           ∧ createSucceeds w outputFileName = false
           ∧ d = ErrorCreatingOutputFile outputFileName))
  ∧ ((∃ partial, main G w args = Panicked partial) ↔
     (2 ≤ length args)%nat
     ∧ ∃ scanned, scanRoots G w roots = Ok scanned
                  ∧ createSucceeds w outputFileName = true
                  ∧ ¬ titled (normalize scanned))
  ∧ ((∃ body, main G w args = Written body) ↔
     (2 ≤ length args)%nat
     ∧ ∃ scanned, scanRoots G w roots = Ok scanned
                  ∧ createSucceeds w outputFileName = true
                  ∧ titled (normalize scanned)).
Proof.
  intros roots outputFileName. unfold main. fold roots. fold outputFileName.
  destruct (length args <? 2)%nat eqn:Hlen.
  { apply Nat.ltb_lt in Hlen. split; [|split].
    - intros d. split.
      + intros [= <-]. by left.
      + intros [[_ ->]|[[? _]|[? _]]]; [done|lia|lia].
    - split; [intros [? ?]; done | intros [? _]; lia].
    - split; [intros [? ?]; done | intros [? _]; lia]. }
  apply Nat.ltb_ge in Hlen.
  destruct (scanRoots G w roots) as [scanned|d0].
  2:{ split; [|split].
      - intros d. split.
        + intros [= <-]. right. by left.
        + intros [[? _]|[[_ [= ->]]|(_ & [? ?] & _)]]; [lia|done|done].
      - split; [intros [? ?]; done | intros (_ & ? & ? & _); done].
      - split; [intros [? ?]; done | intros (_ & ? & ? & _); done]. }
  destruct (createSucceeds w outputFileName).
  2:{ split; [|split].
      - intros d. split.
        + intros [= <-]. right. right. split; [done|]. split; [by eexists|done].
        + intros [[? _]|[[_ ?]|(_ & _ & _ & ->)]]; [lia|done|done].
      - split; [intros [? ?]; done | intros (_ & ? & _ & ? & _); done].
      - split; [intros [? ?]; done | intros (_ & ? & _ & ? & _); done]. }
  cbv zeta.
  pose proof (renderMetrics_panics [] "" (sortedMetrics G scanned)) as Hp.
  rewrite <- not_titled, titled_sortedMetrics in Hp.
  destruct (renderMetrics [] "" (sortedMetrics G scanned)) as [body|partial] eqn:Hr.
  - assert (Ht : titled (normalize scanned)).
    { destruct (decide (titled (normalize scanned))) as [|Hn]; [done|].
      apply Hp in Hn as [? ?]. done. }
    split; [|split].
    + intros d. split; [done|]. intros [[? _]|[[_ ?]|(_ & _ & ? & _)]]; [lia|done|done].
    + split; [intros [? ?]; done|]. intros (_ & ? & [= <-] & _ & ?). done.
    + split; [|by eexists]. intros _. split; [done|]. by exists scanned.
  - assert (Ht : ¬ titled (normalize scanned)) by (apply Hp; by eexists).
    split; [|split].
    + intros d. split; [done|]. intros [[? _]|[[_ ?]|(_ & _ & ? & _)]]; [lia|done|done].
    + split; [|by eexists]. intros _. split; [done|]. by exists scanned.
    + split; [intros [? ?]; done|]. intros (_ & ? & [= <-] & _ & ?). done.
Qed.

(** ** Records without a subsystem *)

Lemma StronglySorted_split {A} (R : relation A) (P : A → Prop) `{∀ x, Decision (P x)}
  (l : list A) :
  (∀ a b, P a → ¬ P b → ¬ R b a) →
  StronglySorted R l →
  ∃ l1 l2, l = l1 ++ l2 ∧ Forall P l1 ∧ Forall (λ x, ¬ P x) l2.
Proof.
  intros HR. induction 1 as [|x l _ IH Hx]; [by exists [], []|].
  destruct IH as (l1 & l2 & -> & H1 & H2).
  destruct (decide (P x)) as [Hp|Hn].
  - exists (x :: l1), l2. split; [done|]. split; [by constructor|done].
  - exists [], (x :: l1 ++ l2). split; [done|]. split; [constructor|].
    constructor; [done|]. rewrite Forall_forall in Hx. apply Forall_forall.
    intros y Hy Hpy. by apply (HR y x Hpy Hn), Hx.
Qed.

Lemma renderMetrics_unnamed written previousTitle (l1 l2 : list metricInfo) :
  Forall (λ m, subsystem m = "") l1 →
  renderMetrics written previousTitle (l1 ++ l2)
  = renderMetrics (written ++ (entryOf <$> named l1)) previousTitle l2.
Proof.
  intros H1. revert written. induction H1 as [|m l1 Hs _ IH]; intros written.
  - by rewrite app_nil_r.
  - cbn [app renderMetrics]. unfold renderGroup.
    rewrite bool_decide_eq_false_2 by (intros Hne; by apply Hne).
    rewrite IH, (named_cons m l1), fmap_app, renderEntry_named. cbn [app].
    by rewrite app_assoc.
Qed.

(** X17.  The sort puts every record without a subsystem before every
    record with one, whatever [sort.Slice] does with ties: the document
    starts with the blocks of the records that have no subsystem, and no
    such block comes after the first group heading. *)
Theorem records_without_subsystem_come_first (G : runtime) (scanned : list metricInfo) :
  ∃ l1 l2,
    sortedMetrics G scanned = l1 ++ l2
    ∧ Forall (λ m, subsystem m = "") l1
    ∧ Forall (λ m, subsystem m ≠ "") l2
    ∧ renderMetrics [] "" (sortedMetrics G scanned)
      = renderMetrics (entryOf <$> named l1) "" l2.
Proof.
  destruct (StronglySorted_split (notAfter bySubsystem) (λ m, subsystem m = "")
              (sortedMetrics G scanned)) as (l1 & l2 & E & H1 & H2).
  - intros a b Ha Hb. unfold notAfter. rewrite bySubsystem_false, Ha.
    pose proof (priority_named _ Hb) as Hp.
    assert (priority "" = 100) as -> by reflexivity. lia.
  - apply sortSlice_sorted, bySubsystem_strictWeakOrder.
  - exists l1, l2. split; [done|]. split; [done|]. split; [done|].
    rewrite E. by apply (renderMetrics_unnamed [] "").
Qed.

(** ** Selectors *)

Lemma identMapping_ampersand (rest : string) : identMapping !! String "&" rest = None.
Proof.
  destruct (identMapping !! String "&" rest) as [v|] eqn:E; [|done]. exfalso.
  apply elem_of_list_to_map_2 in E.
  repeat (apply elem_of_cons in E as [E|E]; [discriminate E|]).
  by apply elem_of_nil in E.
Qed.

(** X18.  A selector resolves through the table under the key
    [<printed operand>.<name>], and only a plain identifier prints as its
    name: a selector whose operand is anything else (a nested selector such
    as [a.b.C], a call, an index) never resolves, it is fatal as an
    unsupported selector. *)
Theorem selector_on_a_non_identifier_is_fatal (G : runtime) (X : expr) (Sel : string) :
  (∀ Name, X ≠ Ident Name) →
  resolveField G (SelectorExpr X Sel)
  = Fatal (UnsupportedSelector (exprString G X +:+ "." +:+ Sel)).
Proof.
  intros HX. unfold resolveField. cbn [fieldValue]. unfold getIdentMapping.
  assert (E : ∃ rest, exprString G X +:+ "." +:+ Sel = String "&" rest).
  { destruct X; try (eexists; reflexivity). by destruct (HX Name). }
  destruct E as [rest E]. rewrite E at 1. by rewrite identMapping_ampersand.
Qed.

Lemma selector_on_a_non_identifier_is_fatal_witness :
  resolveField referenceRuntime (SelectorExpr (SelectorExpr (Ident "metrics") "consts") "Namespace")
  = Fatal (UnsupportedSelector
             (exprString referenceRuntime (SelectorExpr (Ident "metrics") "consts")
              +:+ "." +:+ "Namespace")).
Proof.
  apply (selector_on_a_non_identifier_is_fatal referenceRuntime
           (SelectorExpr (Ident "metrics") "consts") "Namespace").
  intros Name. discriminate.
Defined.

(** ** The comparison of the sort *)

(** X19.  The [less] function handed to [sort.Slice] is a strict weak
    ordering, as [sort.Slice] requires, and it leaves two records unordered
    exactly when their subsystems have the same priority and their
    qualified names are equal: only among such records is the rendered order
    left to the sorting algorithm. *)
Theorem comparison_is_a_strict_weak_order :
  strictWeakOrder bySubsystem
  ∧ ∀ a b, (bySubsystem a b = false ∧ bySubsystem b a = false) ↔
           (priority (subsystem a) = priority (subsystem b)
            ∧ qualifiedName a = qualifiedName b).
Proof.
  split; [apply bySubsystem_strictWeakOrder|]. intros a b. rewrite !bySubsystem_false. split.
  - intros [[H1|[E1 H1]] [H2|[E2 H2]]]; try lia. split; [done|]. by apply stringGt_antisym.
  - intros [Ep Eq]. rewrite Ep, Eq.
    assert (stringGt (qualifiedName b) (qualifiedName b) = false)
      by (unfold stringGt; by rewrite string_compare_refl).
    split; right; done.
Qed.

(** ** A root given twice *)

Lemma appendEach_app {A B} (f : A → result (list B)) acc (l1 l2 : list A) :
  appendEach f acc (l1 ++ l2) = do r <- appendEach f acc l1; appendEach f r l2.
Proof.
  revert acc. induction l1 as [|x l1 IH]; intros acc; [done|].
  cbn [app appendEach]. destruct (f x) as [rx|]; cbn [bind]; [apply IH|done].
Qed.

Lemma uniqByFrom_seen {A} (iteratee : A → string) seen (l : list A) :
  (∀ x, x ∈ l → iteratee x ∈ seen) → Go.uniqByFrom iteratee seen l = [].
Proof.
  induction l as [|y l IH]; intros H; [done|]. cbn [Go.uniqByFrom].
  rewrite decide_True by (apply H; left). apply IH. intros x Hx. apply H. by right.
Qed.

Lemma dedupe_repeats (a b c : list metricInfo) :
  (∀ x, x ∈ b → x ∈ a) → dedupe (a ++ b ++ c) = dedupe (a ++ c).
Proof.
  intros Hb. unfold dedupe, Go.UniqBy. rewrite !uniqByFrom_app. f_equal.
  rewrite uniqByFrom_seen.
  - cbn [app]. apply uniqByFrom_ext. intros x _.
    rewrite !elem_of_union, !elem_of_list_to_set. split; [|tauto].
    intros [Hx|?]; [|tauto]. left.
    apply list_elem_of_fmap in Hx as (y & -> & Hy). apply list_elem_of_fmap.
    exists y. split; [done|]. by apply Hb.
  - intros x Hx. rewrite elem_of_union, elem_of_list_to_set. left.
    apply list_elem_of_fmap. exists x. split; [done|]. by apply Hb.
Qed.

Lemma normalize_repeats (a b c : list metricInfo) :
  (∀ x, x ∈ b → x ∈ a) → normalize (a ++ b ++ c) = normalize (a ++ c).
Proof.
  intros Hb. unfold normalize.
  rewrite (addPatternBasedMetrics_app (a ++ b ++ c)), (addPatternBasedMetrics_app (a ++ c)).
  by rewrite <- !app_assoc, dedupe_repeats.
Qed.

Lemma arguments_snoc (roots : list string) (out : string) :
  take (length (roots ++ [out]) - 1) (roots ++ [out]) = roots
  ∧ last (roots ++ [out]) = Some out.
Proof.
  split; [|apply last_snoc].
  replace (length (roots ++ [out]) - 1)%nat with (length roots)
    by (rewrite length_app; simpl; lia).
  apply take_app_length.
Qed.

(** X20.  Naming a root again on the command line, at any position after
    its first naming, changes nothing: the run ends the same way and writes
    the same document, because every record of the repeated scan has a key
    that the dedupe has already seen (or an earlier scan was already
    fatal). *)
Theorem repeating_a_root_changes_nothing (G : runtime) (w : world)
  (before after : list string) (root out : string) :
  root ∈ before →
  main G w (before ++ root :: after ++ [out]) = main G w (before ++ after ++ [out]).
Proof.
  intros Hroot.
  replace (before ++ root :: after ++ [out]) with ((before ++ root :: after) ++ [out])
    by (by rewrite <- app_assoc).
  rewrite (app_assoc before after [out]).
  unfold main.
  destruct (arguments_snoc (before ++ root :: after) out) as [-> ->].
  destruct (arguments_snoc (before ++ after) out) as [-> ->].
  replace (length ((before ++ root :: after) ++ [out]) <? 2)%nat with false
    by (symmetry; apply Nat.ltb_ge; rewrite !length_app; simpl; lia).
  replace (length ((before ++ after) ++ [out]) <? 2)%nat with false
    by (symmetry; apply Nat.ltb_ge; rewrite !length_app; destruct Hroot; simpl; lia).
  unfold scanRoots. rewrite !appendEach_app.
  destruct (appendEach (scanRoot G w) [] before) as [first|d] eqn:Hfirst; cbn [bind]; [|done].
  cbn [appendEach].
  destruct (scanRoot G w root) as [again|d] eqn:Hagain; cbn [bind].
  - rewrite (appendEach_acc (scanRoot G w) (first ++ again)),
      (appendEach_acc (scanRoot G w) first).
    destruct (appendEach (scanRoot G w) [] after) as [rest|d]; cbn [bind]; [|done].
    assert (Hsame : sortedMetrics G ((first ++ again) ++ rest) = sortedMetrics G (first ++ rest)).
    { unfold sortedMetrics. rewrite <- app_assoc, normalize_repeats; [done|].
      intros x Hx. by eapply appendEach_elem_Ok. }
    by rewrite Hsame.
  - destruct (appendEach_elem_Fatal (scanRoot G w) [] before root d Hroot Hagain) as [d' Hd'].
    congruence.
Qed.

Lemma repeating_a_root_changes_nothing_witness :
  let w := {| walkDir := λ root,
                if String.eqb root "pkg" then
                  [Parsed [ {| pkgName := "metrics"; pkgFiles :=
                      [[declaring [("Namespace", literal "karpenter");
                                   ("Name", literal "build_info");
                                   ("Help", literal "Build information.")]]] |} ]]
                else
                  [Parsed [ {| pkgName := "state"; pkgFiles :=
                      [[declaring [("Namespace", literal "karpenter");
                                   ("Subsystem", literal "nodes");
                                   ("Name", literal "created_total");
                                   ("Help", literal "Number of nodes created.")]]] |} ]];
              createSucceeds := λ _, true |} in
  main referenceRuntime w (["pkg"] ++ "pkg" :: ["lib"] ++ ["metrics.md"])
  = main referenceRuntime w (["pkg"] ++ ["lib"] ++ ["metrics.md"]).
Proof.
  intros w.
  apply (repeating_a_root_changes_nothing referenceRuntime w ["pkg"] ["lib"] "pkg" "metrics.md").
  by_compute.
Defined.
